(** * plotGWB/skymaps.py: the complex spherical-harmonic transform core

    A shallow embedding of the functions [cmplx_map_2_full_alm],
    [full_alm_2_cmplx_map], [full_alm_2_Cl], [syn_full_alm] and
    [syn_cmplx_map] of [src/plotGWB/skymaps.py].

    Numbers.  The source computes in IEEE binary64; the embedding computes
    in exact rational arithmetic ([Qc], canonical rationals), so that the
    algebraic identities the source relies on can be stated as equalities.
    Pixel values carry the three non-finite float values explicitly, because
    the mask of the analyser is built from them.

    healpy.  The real-valued transform ([hp.map2alm], [hp.alm2map]), the
    random generator ([hp.synalm]) and [hp.mask_bad] are not part of the
    repository: they are Section variables, and what a theorem needs from
    them is a hypothesis of that theorem.  [hp.Alm.getlm] fixes the index
    convention and is written out. *)

From Stdlib Require Import String ZArith QArith Qcanon List Bool Lia.
From Stdlib Require Import Permutation Sorted.
Import ListNotations.

Local Open Scope Z_scope.

(** ** Complex numbers over exact rationals *)

Module Cx.

Local Open Scope Qc_scope.

Record C : Type := mkC { re : Qc; im : Qc }.

Definition RtoC (x : Qc) : C := mkC x 0.
Definition ZtoC (z : Z) : C := RtoC (Q2Qc (inject_Z z)).

Definition c0 : C := mkC 0 0.
(** Python's [1j], [0.5] and [0.5j]. *)
Definition half : Qc := / (1 + 1).
Definition c1j : C := mkC 0 1.
Definition chalf : C := mkC half 0.
Definition chalfj : C := mkC 0 half.

Definition cadd (a b : C) : C := mkC (re a + re b) (im a + im b).
Definition cneg (a : C) : C := mkC (- re a) (- im a).
Definition csub (a b : C) : C := mkC (re a - re b) (im a - im b).
Definition cmul (a b : C) : C :=
  mkC (re a * re b - im a * im b) (re a * im b + im a * re b).
Definition conj (a : C) : C := mkC (re a) (- im a).

(** [x == y] on two complex floats. *)
Definition Qc_eqb (x y : Qc) : bool := Qeq_bool x y.
Definition ceqb (a b : C) : bool := Qc_eqb (re a) (re b) && Qc_eqb (im a) (im b).

(** [|a|^2], as the specification writes it. *)
Definition normsq (a : C) : Qc := re a * re a + im a * im a.

End Cx.
Import Cx.

(** ** Exceptions and the error monad

    Every exception the modelled code can raise.  The source defines no
    exception class of its own: its only failure of its own making is the
    [assert] of [syn_full_alm]. *)

Inductive exn : Type :=
| ValueError                     (* numpy / pandas: two lengths differ; healpy: no index *)
| KeyError                       (* pandas: label absent from the index *)
| AssertionError (msg : string)  (* a failed [assert] *)
| Unaligned                      (* no exception: a result outside the model, see [series_binop] *)
| ForeignError (msg : string).   (* raised inside healpy *)

Inductive result (A : Type) : Type :=
| Ok (a : A)
| Err (e : exn).
Arguments Ok {A} a.
Arguments Err {A} e.

Definition bind {A B : Type} (r : result A) (k : A -> result B) : result B :=
  match r with
  | Ok a => k a
  | Err e => Err e
  end.

Notation "x <- e ;; k" := (bind e (fun x => k))
  (at level 61, e at next level, right associativity).
Notation "' p <- e ;; k" := (bind e (fun x => let p := x in k))
  (at level 61, p pattern, e at next level, right associativity).

(** ** Pixel values and maps *)

(** A binary64 value: a finite number, or one of the three non-finite ones. *)
Inductive fl : Type :=
| Fin (q : Qc)
| PInf
| NInf
| NaN.

(** One pixel of a complex map ([np.real], [np.imag] are the projections). *)
Record cpix : Type := mkPix { pre : fl; pim : fl }.

Definition isnan (x : fl) : bool :=
  match x with NaN => true | _ => false end.

Definition isfinite (x : fl) : bool :=
  match x with Fin _ => true | _ => false end.

(** [np.isnan] on a complex entry: either part is NaN. *)
Definition np_isnan (p : cpix) : bool := isnan (pre p) || isnan (pim p).

(** [np.isfinite] on a complex entry: both parts are finite. *)
Definition np_isfinite (p : cpix) : bool := isfinite (pre p) && isfinite (pim p).

Definition pix_of_C (c : C) : cpix := mkPix (Fin (re c)) (Fin (im c)).

(** A numpy masked array of reals. *)
Record masked : Type := mkMasked { data : list fl; mask : list bool }.

(** [arr.mask = m] *)
Definition set_mask (a : masked) (m : list bool) : masked :=
  mkMasked (data a) m.

(** ** The (l, m) index: [hp.Alm.getlm] *)

(** [a, a+1, ..., a+n-1] (empty when [n <= 0]). *)
Fixpoint zrange_nat (a : Z) (n : nat) : list Z :=
  match n with
  | O => []
  | S n' => a :: zrange_nat (a + 1) n'
  end.

Definition zrange (a n : Z) : list Z := zrange_nat a (Z.to_nat n).

(** Modelled from the spec: [hp.Alm.getlm] belongs to healpy, not to this
    repository.  For [lmax >= 0] the convention the specification relies on
    (section 6) is healpy's documented one: only [m >= 0], [m] ascending,
    and [l] ascending from [m] to [lmax] within each [m].  Pairs are written
    [(l, m)].  (A negative [lmax] is refused at the call, see [Alm_getlm].) *)
Definition getlm_pairs (lmax : Z) : list (Z * Z) :=
  flat_map (fun m => map (fun l => (l, m)) (zrange m (lmax - m + 1)))
           (zrange 0 (lmax + 1)).

(** The two arrays [l, m] that [hp.Alm.getlm(lmax)] returns. *)
Definition getlm (lmax : Z) : list Z * list Z :=
  (map fst (getlm_pairs lmax), map snd (getlm_pairs lmax)).

(** [hp.Alm.getsize(lmax)] *)
Definition getsize (lmax : Z) : nat := length (getlm_pairs lmax).

(** [(-1)**m] on an integer [m >= 0] (numpy raises on a negative integer
    exponent, which is why the source takes [np.abs] where [m] may be
    negative). *)
Definition pow_m1 (m : Z) : Z := (-1) ^ m.

(** The call [l, m = hp.Alm.getlm(lmax)].  The specification takes degrees
    in [0 .. lmax] and says nothing of a negative [lmax].  The one negative
    value the source produces by itself is [-1] (an empty [Cls] with [lmax]
    omitted), and there healpy has no label to return and the call raises
    [ValueError].  Every negative [lmax] is modelled like that one: the call
    raises [ValueError] and nothing after it runs. *)
Definition Alm_getlm (lmax : Z) : result (list Z * list Z) :=
  if lmax <? 0 then Err ValueError else Ok (getlm lmax).

(** ** pandas Series

    A Series is the list of its (label, value) rows, in order: order and
    position matter to the source (positional products with numpy arrays,
    boolean masks, [.values]).  A two-level label is a pair in the order of
    the levels of its MultiIndex. *)

Definition key : Type := (Z * Z)%type.
Definition Series (K : Type) : Type := list (K * C).

Definition index {K : Type} (s : Series K) : list K := map fst s.
Definition values {K : Type} (s : Series K) : list C := map snd s.

Definition swap (k : key) : key := (snd k, fst k).

Definition key_eqb (a b : key) : bool :=
  (fst a =? fst b) && (snd a =? snd b).

Fixpoint list_eqb {A : Type} (eqb : A -> A -> bool) (a b : list A) : bool :=
  match a, b with
  | [], [] => true
  | x :: a', y :: b' => eqb x y && list_eqb eqb a' b'
  | _, _ => false
  end.

(** [pd.Series(data=..., index=...)]: the lengths must agree. *)
Definition pd_Series {K : Type} (d : list C) (idx : list K) : result (Series K) :=
  if Nat.eqb (length d) (length idx) then Ok (combine idx d) else Err ValueError.

(** [s.index = idx], for an [idx] as long as [s] (it always is in the
    source: the new index is computed from the old one). *)
Definition set_index {K K' : Type} (s : Series K) (idx : list K') : Series K' :=
  combine idx (values s).

(** Elementwise unary operation, and a scalar on one side. *)
Definition smap {K : Type} (f : C -> C) (s : Series K) : Series K :=
  map (fun e => (fst e, f (snd e))) s.

(** numpy [a * s] for a complex array and an integer array of equal length. *)
Definition np_mul_int (a : list C) (s : list Z) : result (list C) :=
  if Nat.eqb (length a) (length s)
  then Ok (map (fun e => cmul (fst e) (ZtoC (snd e))) (combine a s))
  else Err ValueError.

(** [ser * arr] and [arr * ser] for a Series and an integer numpy array:
    positional, the lengths must agree. *)
Definition series_mul_arr {K : Type} (s : Series K) (a : list Z) : result (Series K) :=
  if Nat.eqb (length s) (length a)
  then Ok (map (fun e => (fst (fst e), cmul (snd (fst e)) (ZtoC (snd e)))) (combine s a))
  else Err ValueError.

Definition arr_mul_series {K : Type} (a : list Z) (s : Series K) : result (Series K) :=
  if Nat.eqb (length a) (length s)
  then Ok (map (fun e => (fst (snd e), cmul (ZtoC (fst e)) (snd (snd e)))) (combine a s))
  else Err ValueError.

(** [s[b]] for a boolean numpy array [b]: positional, lengths must agree. *)
Definition bool_select {K : Type} (s : Series K) (b : list bool) : result (Series K) :=
  if Nat.eqb (length s) (length b)
  then Ok (map fst (filter snd (combine s b)))
  else Err ValueError.

(** [s.drop(lab, level=...)]: the rows whose label at that level is [lab]
    are removed. *)
Definition drop_level (proj : key -> Z) (lab : Z) (s : Series key) : Series key :=
  filter (fun e => negb (proj (fst e) =? lab)) s.

(** Stable insertion sort. *)
Fixpoint insert_by {A : Type} (le : A -> A -> bool) (x : A) (l : list A) : list A :=
  match l with
  | [] => [x]
  | y :: t => if le x y then x :: y :: t else y :: insert_by le x t
  end.

Definition sort_by {A : Type} (le : A -> A -> bool) (l : list A) : list A :=
  fold_right (insert_by le) [] l.

(** Lexicographic order on two-level labels. *)
Definition lex_le (a b : key) : bool :=
  (fst a <? fst b) || ((fst a =? fst b) && (snd a <=? snd b)).

(** Second level first. *)
Definition lex_le_snd (a b : key) : bool := lex_le (swap a) (swap b).

Definition on_key {V : Type} (le : key -> key -> bool) (x y : key * V) : bool :=
  le (fst x) (fst y).

(** [s.sort_index()], and [s.sort_index(level=L)] for [L] the first level:
    by the first level, then by the second. *)
Definition sort_index (s : Series key) : Series key := sort_by (on_key lex_le) s.

(** [s.sort_index(level=L)] for [L] the second level: by the second level,
    then by the first. *)
Definition sort_index_snd (s : Series key) : Series key := sort_by (on_key lex_le_snd) s.

(** [s.swaplevel()] *)
Definition swaplevel (s : Series key) : Series key :=
  map (fun e => (swap (fst e), snd e)) s.

(** The value at a label (the first row carrying it). *)
Fixpoint lookup (k : key) (s : Series key) : option C :=
  match s with
  | [] => None
  | (k', v) :: t => if key_eqb k k' then Some v else lookup k t
  end.

Definition lookup_or (d : C) (k : key) (s : Series key) : C :=
  match lookup k s with Some v => v | None => d end.

(** A list of labels without repetition. *)
Fixpoint uniqueb (l : list key) : bool :=
  match l with
  | [] => true
  | k :: t => negb (existsb (key_eqb k) t) && uniqueb t
  end.

(** Two lists carrying the same labels. *)
Definition same_labels (a b : list key) : bool :=
  forallb (fun k => existsb (key_eqb k) b) a
  && forallb (fun k => existsb (key_eqb k) a) b.

(** [a (op) b] on two Series.  pandas first checks [a.index.equals(b.index)]
    and, when it holds, works row by row, keeping the index of [a].
    Otherwise it aligns the two Series by label: the result is indexed by
    the sorted union of the labels and holds, at each label, the operation
    on the two values carrying it.  That path is modelled for two indexes
    without repetition that carry the same labels, which covers every
    coefficient set in any order of its rows.  A label present on one side
    only would give NaN, and a repeated label a product of rows: neither has
    a counterpart among the numbers of this model, and both are reported as
    [Unaligned]. *)
Definition series_binop (f : C -> C -> C) (a b : Series key) : result (Series key) :=
  if list_eqb key_eqb (index a) (index b)
  then Ok (map (fun e => (fst (fst e), f (snd (fst e)) (snd (snd e)))) (combine a b))
  else if uniqueb (index a) && uniqueb (index b) && same_labels (index a) (index b)
  then Ok (map (fun k => (k, f (lookup_or c0 k a) (lookup_or c0 k b)))
               (sort_by lex_le (index a)))
  else Err Unaligned.

Definition series_add : Series key -> Series key -> result (Series key) := series_binop cadd.
Definition series_sub : Series key -> Series key -> result (Series key) := series_binop csub.
Definition series_mul : Series key -> Series key -> result (Series key) := series_binop cmul.

Definition key_eq_dec (a b : key) : {a = b} + {a <> b}.
Proof. decide equality; apply Z.eq_dec. Defined.

(** [a.add(b, fill_value=fill)].  With equal indexes, row by row.  Otherwise
    the result is indexed by the sorted union of the labels, and a label
    missing on one side takes [fill] there.  (Labels are unique in every
    index the source builds.) *)
Definition add_fill (a b : Series key) (fill : C) : Series key :=
  if list_eqb key_eqb (index a) (index b)
  then map (fun e => (fst (fst e), cadd (snd (fst e)) (snd (snd e)))) (combine a b)
  else map (fun k => (k, cadd (lookup_or fill k a) (lookup_or fill k b)))
           (sort_by lex_le (nodup key_eq_dec (index a ++ index b))).

(** [s.loc[lab]] on a two-level Series: the rows whose first-level label
    is [lab], indexed by the second level; [KeyError] when there is none. *)
Definition loc (lab : Z) (s : Series key) : result (Series Z) :=
  match filter (fun e => fst (fst e) =? lab) s with
  | [] => Err KeyError
  | r => Ok (map (fun e => (snd (fst e), snd e)) r)
  end.

(** [np.all(a == b)] on two Series with the same labels. *)
Definition all_equal (a b : Series Z) : result bool :=
  if list_eqb Z.eqb (index a) (index b)
  then Ok (forallb (fun e => ceqb (snd (fst e)) (snd (snd e))) (combine a b))
  else Err ValueError.

Definition csum (l : list C) : C := fold_right cadd c0 l.

(** The distinct values of a list, each at the place of its first
    appearance. *)
Fixpoint uniq (l : list Z) : list Z :=
  match l with
  | [] => []
  | x :: t => x :: filter (fun y => negb (y =? x)) (uniq t)
  end.

(** [s.sum(level=L)] for [L] the first level: one row per distinct label of
    that level, holding the sum of the rows carrying it.  The rows come in
    the order in which the labels first appear in [s] (pandas groups with
    [sort=False] here); on a Series sorted by that level, as the two
    producers of this file return them, that is ascending order. *)
Definition sum_level (s : Series key) : Series Z :=
  map (fun l => (l, csum (values (filter (fun e => fst (fst e) =? l) s))))
      (uniq (map (fun e => fst (fst e)) s)).

(** ** The functions of [skymaps.py] *)

Section Skymaps.

(** healpy, the external collaborator. *)
Variable mask_bad : list fl -> list bool.                 (* hp.mask_bad *)
Variable map2alm : masked -> Z -> result (list C).        (* hp.map2alm(map, lmax=lmax) *)
Variable alm2map : list C -> Z -> option Z -> result (list Qc).
                                                          (* hp.alm2map(alm, nside=, lmax=) *)
(** numpy's global random state, threaded explicitly. *)
Variable rng : Type.
Variable synalm : list Qc -> Z -> rng -> result (list C * rng).
                                                          (* hp.synalm(cls, lmax) *)

(** [hp.ma(m)]: a masked array over [m], masked where [m] is UNSEEN. *)
Definition hp_ma (m : list fl) : masked := mkMasked m (mask_bad m).

(** Lines 251-257 (real part) and 259-263 (imaginary part): the half set
    [half_alm] of a real map, extended to negative [m].  These lines run
    once line 233 has returned [l, m], that is for [lmax >= 0]; the two
    arrays are taken from [lmax] again here. *)
Definition expand_half (half_alm : list C) (lmax : Z) : result (Series key) :=
  let '(l, m) := getlm lmax in
  let pos_lm_idx := combine l m in
  let neg_lm_idx := combine l (map Z.opp m) in
  alm_pos <- pd_Series half_alm pos_lm_idx ;;
  let sign := map pow_m1 m in
  neg_data <- np_mul_int (map conj half_alm) sign ;;
  alm_neg <- pd_Series neg_data neg_lm_idx ;;
  let alm_neg := drop_level snd 0 alm_neg in
  let alm := alm_pos ++ alm_neg in
  Ok (sort_index alm).

(** Lines 238-249: the two masked maps handed to [hp.map2alm]. *)
Definition masked_parts (residuals : list cpix) : masked * masked :=
  let mask := map np_isnan residuals in
  let real_map := set_mask (hp_ma (map pre residuals)) mask in
  let imag_map := set_mask (hp_ma (map pim residuals)) mask in
  (real_map, imag_map).

Definition cmplx_map_2_full_alm (residuals : list cpix) (lmax : Z)
  : result (Series key) :=
  lm <- Alm_getlm lmax ;;   (* line 233; [expand_half] takes [l, m] from [lmax] again *)
  let '(real_map, imag_map) := masked_parts residuals in
  real_alm <- map2alm real_map lmax ;;
  imag_alm <- map2alm imag_map lmax ;;
  alm_real <- expand_half real_alm lmax ;;
  alm_imag <- expand_half imag_alm lmax ;;
  series_add alm_real (smap (cmul c1j) alm_imag).

(** Lines 275-285: the components [re_alm], [im_alm] over the whole index. *)
Definition split_alm (alm : Series key) : result (Series key * Series key) :=
  let l := map fst (index alm) in
  let m := map snd (index alm) in
  let alnegm := set_index alm (combine l (map Z.opp m)) in
  let alnegm := sort_index alnegm in
  let sign := map (fun m => pow_m1 (Z.abs m)) m in
  t1 <- arr_mul_series sign (smap conj alnegm) ;;
  s1 <- series_add alm t1 ;;
  let re_alm := smap (cmul chalf) s1 in
  t2 <- arr_mul_series sign (smap conj alnegm) ;;
  s2 <- series_add (smap cneg alm) t2 ;;
  let im_alm := smap (cmul chalfj) s2 in
  Ok (re_alm, im_alm).

(** Lines 288-293: back to healpy's format. *)
Definition to_healpy (alm : Series key) (m : list Z) : result (list C) :=
  sel <- bool_select alm (map (fun m => 0 <=? m) m) ;;
  Ok (values (sort_index_snd sel)).

(** [re_map + 1j*im_map] on two real arrays. *)
Definition np_complex (re_map im_map : list Qc) : result (list C) :=
  if Nat.eqb (length re_map) (length im_map)
  then Ok (map (fun e => cadd (RtoC (fst e)) (cmul c1j (RtoC (snd e))))
               (combine re_map im_map))
  else Err ValueError.

(** The default of the keyword argument [nside]. *)
Definition nside_default : Z := 32.

Definition full_alm_2_cmplx_map (alm : Series key) (nside : option Z)
  (lmax : option Z) : result (list C) :=
  let nside := match nside with Some n => n | None => nside_default end in
  let m := map snd (index alm) in
  '(re_alm, im_alm) <- split_alm alm ;;
  re_alm <- to_healpy re_alm m ;;
  im_alm <- to_healpy im_alm m ;;
  re_map <- alm2map re_alm nside lmax ;;
  im_map <- alm2map im_alm nside lmax ;;
  np_complex re_map im_map.

(** [Q2Qc] of an integer. *)
Definition Z2Qc (z : Z) : Qc := Q2Qc (inject_Z z).

Definition full_alm_2_Cl (alm : Series key) : result (list (Z * Qc)) :=
  prod <- series_mul alm (smap conj alm) ;;
  let Cl := map (fun e => (fst e, re (snd e))) (sum_level prod) in
  Ok (map (fun e => (fst e, (snd e / Z2Qc (2 * fst e + 1))%Qc)) Cl).

Definition cmplx_map_2_Cl (residuals : list cpix) (lmax : Z)
  : result (list (Z * Qc)) :=
  alm <- cmplx_map_2_full_alm residuals lmax ;;
  full_alm_2_Cl alm.

Definition assert_msg : string := "Different values of alm for m = +/-0".

(** Line 340: the positive-m assembly [almp]. *)
Definition pos_assembly (almr almi : Series key) : result (Series key) :=
  series_add almr (smap (cmul c1j) almi).

(** Lines 341-342: the negative-m assembly [almn], re-indexed. *)
Definition neg_assembly (almr almi : Series key) (m : list Z) (mneg_idx : list key)
  : result (Series key) :=
  d <- series_sub almr (smap (cmul c1j) almi) ;;
  almn <- series_mul_arr (smap conj d) (map pow_m1 m) ;;
  Ok (set_index almn mneg_idx).

(** Line 345: the condition of the [assert]. *)
Definition m0_rows_match (almn almp : Series key) : result bool :=
  n0 <- loc 0 almn ;;
  p0 <- loc 0 almp ;;
  all_equal n0 p0.

(** Lines 338-351: the two generated half sets assembled into a full set.
    [m] is the array of [hp.Alm.getlm] and [mneg_idx] the mirrored index. *)
Definition assemble (almr almi : Series key) (m : list Z) (mneg_idx : list key)
  : result (Series key) :=
  almp <- pos_assembly almr almi ;;
  almn <- neg_assembly almr almi m mneg_idx ;;
  same <- m0_rows_match almn almp ;;
  if same then
    let almn := drop_level fst 0 almn in
    Ok (sort_index (swaplevel (add_fill almp almn c0)))
  else Err (AssertionError assert_msg).

Definition syn_full_alm (Cls : list Qc) (lmax : option Z) (g : rng)
  : result (Series key * rng) :=
  let lmax := match lmax with
              | None => Z.of_nat (length Cls) - 1
              | Some n => n
              end in
  ' (l, m) <- Alm_getlm lmax ;;
  let mpos_idx := combine m l in
  let mneg_idx := combine (map Z.opp m) l in
  let half_Cls := map (fun c => (c * half)%Qc) Cls in
  '(a_r, g1) <- synalm half_Cls lmax g ;;
  almr <- pd_Series a_r mpos_idx ;;
  '(a_i, g2) <- synalm half_Cls lmax g1 ;;
  almi <- pd_Series a_i mpos_idx ;;
  alm <- assemble almr almi m mneg_idx ;;
  Ok (alm, g2).

Definition syn_cmplx_map (Cls : list Qc) (nside : option Z) (lmax : option Z)
  (g : rng) : result (list C * rng) :=
  '(alm, g') <- syn_full_alm Cls lmax g ;;
  cmap <- full_alm_2_cmplx_map alm nside lmax ;;
  Ok (cmap, g').

End Skymaps.

(** ** Inclination factors *)

Section Inclination.

(** [np.cos], on the numbers of the model. *)
Variable np_cos : Qc -> Qc.

(** Lines 216-225: [a(iota)], [b(iota)]. *)
Definition inclination (iota : Qc) : Qc * Qc :=
  let a := (1 + np_cos iota ^ 2)%Qc in
  let b := (- (1 + 1) * np_cos iota)%Qc in
  (a, b).

End Inclination.

(** ** The specification's vocabulary *)

(** The pairs of a full coefficient set of degree [lmax]. *)
Definition in_full_range (lmax : Z) (k : key) : bool :=
  (0 <=? fst k) && (fst k <=? lmax) && (Z.abs (snd k) <=? fst k).

(** The same pairs, listed by degree and then by order. *)
Definition full_index (lmax : Z) : list key :=
  flat_map (fun l => map (fun m => (l, m)) (zrange (- l) (2 * l + 1)))
           (zrange 0 (lmax + 1)).

(** The [m = 0] entries of a half set (in healpy's order) are real. *)
Definition m0_real (lmax : Z) (a : list C) : bool :=
  forallb (fun e => negb (snd (fst e) =? 0) || Qc_eqb (im (snd e)) 0)
          (combine (getlm_pairs lmax) a).

(** The degrees present in a coefficient set, each once, in the order of
    their first appearance. *)
Definition degrees (alm : Series key) : list Z :=
  uniq (map (fun e => fst (fst e)) alm).

(** Section 4.4 of the specification: the sum of [|a_lm|^2] over every [m]
    present at degree [l]. *)
Fixpoint sum_normsq (l : Z) (alm : Series key) : Qc :=
  match alm with
  | [] => 0%Qc
  | e :: t => if fst (fst e) =? l then (normsq (snd e) + sum_normsq l t)%Qc
              else sum_normsq l t
  end.

(** ... divided by [2l + 1], for each degree present. *)
Definition Cl_spec (alm : Series key) : list (Z * Qc) :=
  map (fun l => (l, (sum_normsq l alm / Z2Qc (2 * l + 1))%Qc)) (degrees alm).

(** The Series that holds [F k] at each label [k] of [idx], in that order. *)
Definition tab (F : key -> C) (idx : list key) : Series key :=
  map (fun k => (k, F k)) idx.

(** The mirror [(l, -m)] of a label [(l, m)]. *)
Definition negm (k : key) : key := (fst k, - snd k).

(** The strict lexicographic order on labels. *)
Definition lex_lt (a b : key) : Prop :=
  fst a < fst b \/ (fst a = fst b /\ snd a < snd b).

(** The labels of an expanded half set, before sorting. *)
Definition expanded_index (lmax : Z) : list key :=
  getlm_pairs lmax
  ++ filter (fun k => negb (snd k =? 0)) (map negm (getlm_pairs lmax)).

(** A half set [F] (a function of the labels with [m >= 0]) extended to
    negative [m] by [a_(l,-m) = conj (a_(l,m)) * (-1)^m]. *)
Definition mirror (F : key -> C) (k : key) : C :=
  if 0 <=? snd k then F k
  else cmul (conj (F (negm k))) (ZtoC (pow_m1 (- snd k))).

(** [re_alm] and [im_alm] of the specification, at one label, for a
    coefficient set given as a function [G] of the label. *)
Definition re_part (G : key -> C) (k : key) : C :=
  cmul chalf (cadd (G k) (cmul (ZtoC (pow_m1 (Z.abs (snd k)))) (conj (G (negm k))))).

Definition im_part (G : key -> C) (k : key) : C :=
  cmul chalfj
       (cadd (cneg (G k)) (cmul (ZtoC (pow_m1 (Z.abs (snd k)))) (conj (G (negm k))))).

(** The relabelling [(m, l) -> (-m, l)] of the generator's index. *)
Definition negfst (k : key) : key := (- fst k, snd k).

(** The two assemblies at one label [(m, l)], [m >= 0], from the two
    generated half sets as functions of that label. *)
Definition pos_value (R I : key -> C) (k : key) : C :=
  cadd (R k) (cmul c1j (I k)).

Definition neg_value (R I : key -> C) (k : key) : C :=
  cmul (conj (csub (R k) (cmul c1j (I k)))) (ZtoC (pow_m1 (fst k))).

(** The labels [(m, l)] of the negative assembly once its [m = 0] rows
    are dropped. *)
Definition mneg_dropped (lmax : Z) : list key :=
  filter (fun k => negb (fst k =? 0)) (map negfst (map swap (getlm_pairs lmax))).

(** The entry of a healpy array [d] (one entry per label of
    [hp.Alm.getlm(lmax)], in that order) at the label [k]. *)
Definition half_at (lmax : Z) (d : list C) (k : key) : C :=
  lookup_or c0 k (combine (getlm_pairs lmax) d).

(** The combination [alm_real + 1j * alm_imag] of two mirrored half sets,
    at one label. *)
Definition combination (FR FI : key -> C) (k : key) : C :=
  cadd (mirror FR k) (cmul c1j (mirror FI k)).

(** Pointwise sum of two spectra over the same degrees. *)
Definition Cl_add (a b : list (Z * Qc)) : list (Z * Qc) :=
  map (fun e => (fst (fst e), (snd (fst e) + snd (snd e))%Qc)) (combine a b).

(** ** Sample collaborators

    Small stand-ins for healpy on which the functions above can be run.
    They have the shape of the real ones (array sizes, real [m = 0]
    coefficients, zero map to zero coefficients) and nothing of their
    numerics. *)

Module Sample.

Definition mask_bad (d : list fl) : list bool := map (fun _ => false) d.

Definition fin_or_0 (x : fl) : Qc :=
  match x with Fin q => q | _ => 0%Qc end.

(** The first unmasked pixel, or 0. *)
Fixpoint first_seen (d : list fl) (m : list bool) : Qc :=
  match d, m with
  | x :: d', false :: m' => fin_or_0 x
  | _ :: d', true :: m' => first_seen d' m'
  | _, _ => 0%Qc
  end.

(** Only the monopole: [a_00] is the first unmasked pixel. *)
Definition map2alm (mm : masked) (lmax : Z) : result (list C) :=
  Ok (map (fun k => if key_eqb k (0, 0) then RtoC (first_seen (data mm) (mask mm)) else c0)
          (getlm_pairs lmax)).

(** The constant map of the monopole, on [12 * nside^2] pixels. *)
Definition alm2map (alm : list C) (nside : Z) (lmax : option Z) : result (list Qc) :=
  Ok (repeat (re (hd c0 alm)) (Z.to_nat (12 * nside * nside))).

(** A counter for a random state; the draw for [(l, m)] is
    [cl_l + g + (l + m) i], real at [m = 0]. *)
Definition synalm (cls : list Qc) (lmax : Z) (g : Z) : result (list C * Z) :=
  Ok (map (fun k => mkC (nth (Z.to_nat (fst k)) cls 0 + Z2Qc g)%Qc
                        (if snd k =? 0 then 0%Qc else Z2Qc (fst k + snd k)))
          (getlm_pairs lmax),
      g + 1).

(** The same synthesis, refusing every resolution but 32. *)
Definition alm2map_32 (alm : list C) (nside : Z) (lmax : option Z) : result (list Qc) :=
  if nside =? 32 then alm2map alm nside lmax else Err (ForeignError "nside").

End Sample.

(** * Properties *)

(** ** Complex arithmetic *)

Lemma c_eq (a b : C) : re a = re b -> im a = im b -> a = b.
Proof. destruct a, b; simpl; intros -> ->; reflexivity. Qed.

Lemma Qc_eqb_eq (x y : Qc) : Qc_eqb x y = true <-> x = y.
Proof.
  unfold Qc_eqb; rewrite Qeq_bool_iff; split.
  - apply Qc_is_canon.
  - intros ->; reflexivity.
Qed.

Lemma ceqb_eq (a b : C) : ceqb a b = true <-> a = b.
Proof.
  unfold ceqb; rewrite andb_true_iff, !Qc_eqb_eq; split.
  - intros [H1 H2]; now apply c_eq.
  - intros ->; auto.
Qed.

Lemma two_neq_0 : (1 + 1 <> 0)%Qc.
Proof. intro H; discriminate H. Qed.

Lemma half_double (x : Qc) : (half * x + half * x = x)%Qc.
Proof. unfold half; field; exact two_neq_0. Qed.


Lemma ZtoC_1 : ZtoC 1 = mkC 1%Qc 0%Qc.
Proof. reflexivity. Qed.

Lemma ZtoC_m1 : ZtoC (-1) = mkC (Qcopp 1) 0%Qc.
Proof. apply c_eq; simpl; apply Qc_is_canon; reflexivity. Qed.

Lemma pow_m1_cases (m : Z) : 0 <= m -> pow_m1 m = 1 \/ pow_m1 m = -1.
Proof.
  intros Hm; unfold pow_m1.
  destruct (Z.Even_or_Odd m) as [[k ->] | [k ->]].
  - left. rewrite Z.pow_mul_r by lia. change ((-1) ^ 2) with 1. apply Z.pow_1_l; lia.
  - right. rewrite Z.pow_add_r, Z.pow_mul_r by lia.
    change ((-1) ^ 2) with 1. rewrite Z.pow_1_l by lia. reflexivity.
Qed.

Lemma pow_m1_0 : pow_m1 0 = 1.
Proof. reflexivity. Qed.

(** The sign is its own inverse: [s * (s * conj (conj a)) = a]. *)
Lemma sign_involutive (m : Z) (a : C) :
  0 <= m -> cmul (ZtoC (pow_m1 m)) (conj (cmul (conj a) (ZtoC (pow_m1 m)))) = a.
Proof.
  intros Hm. destruct (pow_m1_cases m Hm) as [-> | ->];
    rewrite ?ZtoC_1, ?ZtoC_m1; destruct a as [x y]; apply c_eq; simpl; ring.
Qed.

Lemma re_mul_conj (a : C) : re (cmul a (conj a)) = normsq a.
Proof. destruct a as [x y]; unfold normsq; simpl; ring. Qed.

Lemma re_cadd (a b : C) : re (cadd a b) = (re a + re b)%Qc.
Proof. reflexivity. Qed.

(** ** Lists and labels *)

Lemma key_eqb_eq (a b : key) : key_eqb a b = true <-> a = b.
Proof.
  destruct a as [a1 a2], b as [b1 b2]; unfold key_eqb; simpl.
  rewrite andb_true_iff, !Z.eqb_eq. split.
  - intros [-> ->]; reflexivity.
  - intros H; inversion H; auto.
Qed.

Lemma key_eqb_refl (a : key) : key_eqb a a = true.
Proof. now apply key_eqb_eq. Qed.

Lemma list_eqb_refl {A : Type} (eqb : A -> A -> bool) (l : list A) :
  (forall x, eqb x x = true) -> list_eqb eqb l l = true.
Proof.
  intros Hr; induction l as [| x l IH]; simpl; [reflexivity |].
  now rewrite Hr, IH.
Qed.

Lemma list_eqb_eq {A : Type} (eqb : A -> A -> bool) (a b : list A) :
  (forall x y, eqb x y = true -> x = y) -> list_eqb eqb a b = true -> a = b.
Proof.
  intros He; revert b; induction a as [| x a IH]; intros [| y b]; simpl;
    try discriminate; [reflexivity |].
  intros H; apply andb_true_iff in H as [H1 H2].
  f_equal; [now apply He | now apply IH].
Qed.

Lemma index_smap {K : Type} (f : C -> C) (s : Series K) : index (smap f s) = index s.
Proof. unfold index, smap; rewrite map_map; reflexivity. Qed.

Lemma length_smap {K : Type} (f : C -> C) (s : Series K) : length (smap f s) = length s.
Proof. apply length_map. Qed.

Lemma combine_self_map {A B : Type} (f : A -> B) (l : list A) :
  combine l (map f l) = map (fun x => (x, f x)) l.
Proof. induction l as [| x l IH]; simpl; [reflexivity | now rewrite IH]. Qed.

(** A binary operation on two Series with the same index is row by row. *)
Lemma series_binop_same (f : C -> C -> C) (a b : Series key) :
  index a = index b ->
  series_binop f a b =
  Ok (map (fun e => (fst (fst e), f (snd (fst e)) (snd (snd e)))) (combine a b)).
Proof.
  intros H; unfold series_binop; rewrite H.
  now rewrite list_eqb_refl by apply key_eqb_refl.
Qed.

Lemma series_binop_smap (f : C -> C -> C) (g : C -> C) (a : Series key) :
  series_binop f a (smap g a) = Ok (smap (fun v => f v (g v)) a).
Proof.
  rewrite series_binop_same by (now rewrite index_smap).
  f_equal. unfold smap. rewrite combine_self_map, map_map. reflexivity.
Qed.

(** ** The power spectrum *)

Lemma degree_smap (f : C -> C) (s : Series key) :
  map (fun e => fst (fst e)) (smap f s) = map (fun e => fst (fst e)) s.
Proof. unfold smap; rewrite map_map; reflexivity. Qed.

(** The real part of the sum of [a * conj a] over the rows of degree [l]. *)
Lemma re_csum_degree (l : Z) (alm : Series key) :
  re (csum (values (filter (fun e => fst (fst e) =? l)
                           (smap (fun v => cmul v (conj v)) alm))))
  = sum_normsq l alm.
Proof.
  induction alm as [| e t IH]; simpl; [reflexivity |].
  destruct (fst (fst e) =? l); simpl; [| exact IH].
  rewrite IH. unfold normsq. ring.
Qed.

Lemma Z2Qc_odd_nonzero (l : Z) : Z2Qc (2 * l + 1) <> 0%Qc.
Proof.
  unfold Z2Qc; intros H.
  change 0%Qc with (Q2Qc 0) in H. apply Q2Qc_eq_iff in H.
  unfold Qeq in H; cbn [Qnum Qden inject_Z] in H. lia.
Qed.

Lemma in_insert_by {A : Type} (le : A -> A -> bool) (x y : A) (l : list A) :
  In y (insert_by le x l) <-> y = x \/ In y l.
Proof.
  induction l as [| z l IH]; simpl.
  - intuition congruence.
  - destruct (le x z); simpl; rewrite ?IH; intuition congruence.
Qed.

Lemma in_sort_by {A : Type} (le : A -> A -> bool) (y : A) (l : list A) :
  In y (sort_by le l) <-> In y l.
Proof.
  induction l as [| z l IH]; simpl; [reflexivity |].
  rewrite in_insert_by, IH. intuition congruence.
Qed.

Lemma in_uniq (x : Z) (l : list Z) : In x (uniq l) <-> In x l.
Proof.
  induction l as [| y l IH]; simpl; [reflexivity |].
  rewrite filter_In, IH, negb_true_iff, Z.eqb_neq.
  destruct (Z.eq_dec y x) as [-> | Hne]; [tauto |].
  split; [tauto |]. intros [H | H]; [tauto |]. right. split; [exact H |].
  intros ->. tauto.
Qed.

Lemma NoDup_uniq (l : list Z) : NoDup (uniq l).
Proof.
  induction l as [| y l IH]; simpl; constructor.
  - rewrite filter_In, negb_true_iff, Z.eqb_neq. tauto.
  - now apply NoDup_filter.
Qed.

Lemma in_degrees (l : Z) (alm : Series key) :
  In l (degrees alm) <-> exists m v, In ((l, m), v) alm.
Proof.
  unfold degrees. rewrite in_uniq, in_map_iff. split.
  - intros [[[l' m] v] [E H]]; simpl in E; subst l'. now exists m, v.
  - intros [m [v H]]. now exists ((l, m), v).
Qed.


(** ** The mask of the analyser *)

(** C6, as stated, fails: an infinite pixel is not finite, and is not
    masked. *)
Lemma infinite_pixel_is_not_masked :
  ~ (forall (mask_bad : list fl -> list bool) (X : list cpix) (i : nat) (p : cpix),
        nth_error X i = Some p ->
        np_isfinite p = false ->
        nth_error (mask (fst (masked_parts mask_bad X))) i = Some true).
Proof.
  intros H.
  specialize (H Sample.mask_bad [mkPix PInf (Fin 0%Qc)] 0%nat (mkPix PInf (Fin 0%Qc))
                eq_refl eq_refl).
  discriminate H.
Qed.

(** C6, amended.  The mask is the NaN mask of the input (a pixel is masked
    exactly when its real or its imaginary part is NaN); the real-part and
    the imaginary-part transforms get that same mask; the pixel values are
    handed to the transform as they are, nothing is put in their place; and
    the result depends on the external transform only through its value at
    these two masked maps. *)
Theorem mask_is_the_nan_mask (mask_bad : list fl -> list bool) (X : list cpix) :
  let real_map := fst (masked_parts mask_bad X) in
  let imag_map := snd (masked_parts mask_bad X) in
  mask real_map = map (fun p => isnan (pre p) || isnan (pim p)) X
  /\ mask imag_map = mask real_map
  /\ data real_map = map pre X
  /\ data imag_map = map pim X
  /\ forall (map2alm map2alm' : masked -> Z -> result (list C)) (lmax : Z),
       map2alm real_map lmax = map2alm' real_map lmax ->
       map2alm imag_map lmax = map2alm' imag_map lmax ->
       cmplx_map_2_full_alm mask_bad map2alm X lmax
       = cmplx_map_2_full_alm mask_bad map2alm' X lmax.
Proof.
  cbv zeta. repeat split.
  intros map2alm map2alm' lmax Hr Hi.
  unfold cmplx_map_2_full_alm.
  destruct (masked_parts mask_bad X) as [real_map imag_map] eqn:E.
  simpl in Hr, Hi. now rewrite Hr, Hi.
Qed.

(** On a three-pixel map: a NaN pixel, an infinite one, a finite one. *)
Lemma mask_is_the_nan_mask_witness :
  let X := [mkPix NaN (Fin 0%Qc); mkPix PInf (Fin 0%Qc); mkPix (Fin 1%Qc) (Fin 0%Qc)] in
  mask (fst (masked_parts Sample.mask_bad X)) = [true; false; false]
  /\ cmplx_map_2_full_alm Sample.mask_bad Sample.map2alm X 1
     = cmplx_map_2_full_alm Sample.mask_bad
         (fun mm lmax => Sample.map2alm (mkMasked (data mm) (mask mm)) lmax) X 1.
Proof.
  cbv zeta.
  pose proof (mask_is_the_nan_mask Sample.mask_bad
    [mkPix NaN (Fin 0%Qc); mkPix PInf (Fin 0%Qc); mkPix (Fin 1%Qc) (Fin 0%Qc)])
    as [Hm [_ [_ [_ Hdep]]]].
  split.
  - rewrite Hm. reflexivity.
  - apply Hdep; reflexivity.
Defined.

(** ** Sorting *)

Section Sorting.

Context {A : Type} (le : A -> A -> bool).

Let R (x y : A) : Prop := le x y = true.

Hypothesis le_total : forall x y, le x y = true \/ le y x = true.
Hypothesis le_trans : forall x y z, le x y = true -> le y z = true -> le x z = true.
Hypothesis le_antisym : forall x y, le x y = true -> le y x = true -> x = y.

Lemma insert_by_perm (x : A) (l : list A) : Permutation (insert_by le x l) (x :: l).
Proof.
  induction l as [| y l IH]; simpl; [reflexivity |].
  destruct (le x y); [reflexivity |].
  rewrite IH. apply perm_swap.
Qed.

Lemma sort_by_perm (l : list A) : Permutation (sort_by le l) l.
Proof.
  induction l as [| x l IH]; simpl; [reflexivity |].
  rewrite insert_by_perm. now constructor.
Qed.

Lemma insert_by_sorted (x : A) (l : list A) :
  StronglySorted R l -> StronglySorted R (insert_by le x l).
Proof.
  induction 1 as [| y l Hs IH Hy]; simpl.
  - repeat constructor.
  - destruct (le x y) eqn:E.
    + constructor; [now constructor |].
      constructor; [exact E |].
      eapply Forall_impl; [| exact Hy]. intros z Hz. now apply le_trans with y.
    + constructor; [exact IH |].
      assert (Hyx : R y x) by (destruct (le_total x y); [congruence | assumption]).
      apply Forall_forall. intros z Hz. apply in_insert_by in Hz as [-> | Hz].
      * exact Hyx.
      * rewrite Forall_forall in Hy. now apply Hy.
Qed.

Lemma sort_by_sorted (l : list A) : StronglySorted R (sort_by le l).
Proof.
  induction l as [| x l IH]; simpl; [constructor | now apply insert_by_sorted].
Qed.

(** Two sorted lists with the same elements are the same list. *)
Lemma sorted_perm_eq (l1 l2 : list A) :
  StronglySorted R l1 -> StronglySorted R l2 -> Permutation l1 l2 -> l1 = l2.
Proof.
  intros H1; revert l2; induction H1 as [| x l1 Hs1 IH Hx]; intros l2 H2 HP.
  - apply Permutation_nil in HP. now subst.
  - destruct H2 as [| y l2 Hs2 Hy].
    + apply Permutation_sym, Permutation_nil in HP. discriminate.
    + assert (x = y) as <-.
      { assert (Ix : In x (y :: l2)) by (eapply Permutation_in; [exact HP | now left]).
        assert (Iy : In y (x :: l1))
          by (eapply Permutation_in; [apply Permutation_sym; exact HP | now left]).
        destruct Ix as [-> | Ix]; [reflexivity |].
        destruct Iy as [-> | Iy]; [reflexivity |].
        rewrite Forall_forall in Hx, Hy. apply le_antisym; [now apply Hx | now apply Hy]. }
      f_equal. apply IH; [exact Hs2 |]. now apply Permutation_cons_inv with x.
Qed.

Lemma sort_by_unique (l l' : list A) :
  Permutation l l' -> StronglySorted R l' -> sort_by le l = l'.
Proof.
  intros HP Hs. apply sorted_perm_eq; [apply sort_by_sorted | exact Hs |].
  now rewrite sort_by_perm.
Qed.

End Sorting.

(** Sorting commutes with a map that respects the order. *)
Lemma sort_by_map {A B : Type} (le : A -> A -> bool) (le' : B -> B -> bool)
  (g : A -> B) (l : list A) :
  (forall x y, le' (g x) (g y) = le x y) ->
  sort_by le' (map g l) = map g (sort_by le l).
Proof.
  intros Hg. induction l as [| x l IH]; simpl; [reflexivity |].
  rewrite IH. generalize (sort_by le l) as s.
  induction s as [| y s IHs]; simpl; [reflexivity |].
  rewrite Hg. destruct (le x y); simpl; [reflexivity | now rewrite IHs].
Qed.

(** ** Sorted lists built block by block *)

Lemma StronglySorted_app {A : Type} (R : A -> A -> Prop) (l1 l2 : list A) :
  StronglySorted R l1 -> StronglySorted R l2 ->
  (forall a b, In a l1 -> In b l2 -> R a b) ->
  StronglySorted R (l1 ++ l2).
Proof.
  induction 1 as [| x l1 Hs IH Hx]; intros H2 H12; simpl; [exact H2 |].
  constructor.
  - apply IH; [exact H2 |]. intros a b Ha Hb. apply H12; [now right | exact Hb].
  - apply Forall_app; split; [exact Hx |].
    apply Forall_forall. intros b Hb. apply H12; [now left | exact Hb].
Qed.

Lemma StronglySorted_map {A B : Type} (RA : A -> A -> Prop) (RB : B -> B -> Prop)
  (f : A -> B) (l : list A) :
  (forall x y, RA x y -> RB (f x) (f y)) ->
  StronglySorted RA l -> StronglySorted RB (map f l).
Proof.
  intros Hf. induction 1 as [| x l Hs IH Hx]; simpl; constructor; [exact IH |].
  apply Forall_map. eapply Forall_impl; [| exact Hx]. intros y; apply Hf.
Qed.

Lemma StronglySorted_flat_map {X Y : Type} (RX : X -> X -> Prop) (RY : Y -> Y -> Prop)
  (f : X -> list Y) (xs : list X) :
  StronglySorted RX xs ->
  (forall x, StronglySorted RY (f x)) ->
  (forall x x' y y', RX x x' -> In y (f x) -> In y' (f x') -> RY y y') ->
  StronglySorted RY (flat_map f xs).
Proof.
  intros Hxs Hblock Hcross. induction Hxs as [| x xs Hs IH Hx]; simpl; [constructor |].
  apply StronglySorted_app; [apply Hblock | exact IH |].
  intros a b Ha Hb. apply in_flat_map in Hb as [x' [Hx' Hb]].
  rewrite Forall_forall in Hx. eapply Hcross; [apply Hx; exact Hx' | exact Ha | exact Hb].
Qed.

Lemma StronglySorted_weaken {A : Type} (R R' : A -> A -> Prop) (l : list A) :
  (forall x y, R x y -> R' x y) -> StronglySorted R l -> StronglySorted R' l.
Proof.
  intros HR. induction 1 as [| x l Hs IH Hx]; constructor; [exact IH |].
  eapply Forall_impl; [| exact Hx]. intros y; apply HR.
Qed.

Lemma StronglySorted_NoDup {A : Type} (R : A -> A -> Prop) (l : list A) :
  (forall x, ~ R x x) -> StronglySorted R l -> NoDup l.
Proof.
  intros Hirr. induction 1 as [| x l Hs IH Hx]; constructor; [| exact IH].
  intros Hin. rewrite Forall_forall in Hx. exact (Hirr x (Hx x Hin)).
Qed.

(** ** Integer ranges *)

Lemma in_zrange_nat (n : nat) (a x : Z) :
  In x (zrange_nat a n) <-> a <= x < a + Z.of_nat n.
Proof.
  revert a; induction n as [| n IH]; intros a; simpl zrange_nat.
  - simpl. lia.
  - simpl In. rewrite IH. lia.
Qed.

Lemma in_zrange (a n x : Z) : In x (zrange a n) <-> a <= x < a + n.
Proof. unfold zrange. rewrite in_zrange_nat. lia. Qed.

Lemma zrange_nat_sorted (n : nat) (a : Z) : StronglySorted Z.lt (zrange_nat a n).
Proof.
  revert a; induction n as [| n IH]; intros a; simpl; constructor; [apply IH |].
  apply Forall_forall. intros x Hx. apply in_zrange_nat in Hx. lia.
Qed.

Lemma zrange_sorted (a n : Z) : StronglySorted Z.lt (zrange a n).
Proof. apply zrange_nat_sorted. Qed.

(** ** The two orders on labels *)

Lemma lex_le_spec (a b : key) :
  lex_le a b = true <-> fst a < fst b \/ (fst a = fst b /\ snd a <= snd b).
Proof.
  unfold lex_le. rewrite orb_true_iff, andb_true_iff, Z.ltb_lt, Z.eqb_eq, Z.leb_le.
  reflexivity.
Qed.

Lemma lex_le_total (a b : key) : lex_le a b = true \/ lex_le b a = true.
Proof. rewrite !lex_le_spec. lia. Qed.

Lemma lex_le_trans (a b c : key) :
  lex_le a b = true -> lex_le b c = true -> lex_le a c = true.
Proof. rewrite !lex_le_spec. lia. Qed.

Lemma lex_le_antisym (a b : key) : lex_le a b = true -> lex_le b a = true -> a = b.
Proof.
  rewrite !lex_le_spec. destruct a as [a1 a2], b as [b1 b2]; simpl.
  intros H1 H2. f_equal; lia.
Qed.

Lemma lex_lt_le (a b : key) : lex_lt a b -> lex_le a b = true.
Proof. unfold lex_lt; rewrite lex_le_spec. lia. Qed.

Lemma lex_lt_irrefl (a : key) : ~ lex_lt a a.
Proof. unfold lex_lt. lia. Qed.

Lemma lex_le_snd_total (a b : key) : lex_le_snd a b = true \/ lex_le_snd b a = true.
Proof. apply lex_le_total. Qed.

Lemma lex_le_snd_trans (a b c : key) :
  lex_le_snd a b = true -> lex_le_snd b c = true -> lex_le_snd a c = true.
Proof. apply lex_le_trans. Qed.

Lemma lex_le_snd_antisym (a b : key) :
  lex_le_snd a b = true -> lex_le_snd b a = true -> a = b.
Proof.
  intros H1 H2. pose proof (lex_le_antisym _ _ H1 H2) as E.
  destruct a, b; unfold swap in E; simpl in E. inversion E; reflexivity.
Qed.

(** ** The index of healpy and the full index *)

Lemma in_getlm_pairs (lmax l m : Z) :
  In (l, m) (getlm_pairs lmax) <-> 0 <= m /\ m <= l /\ l <= lmax.
Proof.
  unfold getlm_pairs. rewrite in_flat_map. split.
  - intros [m' [Hm' H]]. apply in_map_iff in H as [l' [E Hl']].
    inversion E; subst. apply in_zrange in Hm'. apply in_zrange in Hl'. lia.
  - intros H. exists m. split; [apply in_zrange; lia |].
    apply in_map_iff. exists l. split; [reflexivity | apply in_zrange; lia].
Qed.

Lemma getlm_pairs_sorted (lmax : Z) :
  StronglySorted (fun a b => lex_lt (swap a) (swap b)) (getlm_pairs lmax).
Proof.
  unfold getlm_pairs.
  apply StronglySorted_flat_map with (RX := Z.lt).
  - apply zrange_sorted.
  - intros m. apply StronglySorted_map with (RA := Z.lt); [| apply zrange_sorted].
    intros x y Hxy. unfold lex_lt, swap; simpl. lia.
  - intros m m' y y' Hm Hy Hy'.
    apply in_map_iff in Hy as [l [<- _]]. apply in_map_iff in Hy' as [l' [<- _]].
    unfold lex_lt, swap; simpl. lia.
Qed.

Lemma getlm_pairs_sorted_le (lmax : Z) :
  StronglySorted (fun a b => lex_le_snd a b = true) (getlm_pairs lmax).
Proof.
  eapply StronglySorted_weaken; [| apply getlm_pairs_sorted].
  intros x y H. now apply lex_lt_le.
Qed.

Lemma getlm_pairs_NoDup (lmax : Z) : NoDup (getlm_pairs lmax).
Proof.
  eapply StronglySorted_NoDup; [| apply getlm_pairs_sorted].
  intros x. apply lex_lt_irrefl.
Qed.

Lemma in_full_index (lmax l m : Z) :
  In (l, m) (full_index lmax) <-> 0 <= l <= lmax /\ Z.abs m <= l.
Proof.
  unfold full_index. rewrite in_flat_map. split.
  - intros [l' [Hl' H]]. apply in_map_iff in H as [m' [E Hm']].
    inversion E; subst. apply in_zrange in Hl'. apply in_zrange in Hm'. lia.
  - intros H. exists l. split; [apply in_zrange; lia |].
    apply in_map_iff. exists m. split; [reflexivity | apply in_zrange; lia].
Qed.

Lemma in_full_index_range (lmax : Z) (k : key) :
  In k (full_index lmax) <-> in_full_range lmax k = true.
Proof.
  destruct k as [l m]. rewrite in_full_index. unfold in_full_range; simpl.
  rewrite !andb_true_iff, !Z.leb_le. tauto.
Qed.

Lemma full_index_sorted (lmax : Z) : StronglySorted lex_lt (full_index lmax).
Proof.
  unfold full_index.
  apply StronglySorted_flat_map with (RX := Z.lt).
  - apply zrange_sorted.
  - intros l. apply StronglySorted_map with (RA := Z.lt); [| apply zrange_sorted].
    intros x y Hxy. unfold lex_lt; simpl. lia.
  - intros l l' y y' Hl Hy Hy'.
    apply in_map_iff in Hy as [m [<- _]]. apply in_map_iff in Hy' as [m' [<- _]].
    unfold lex_lt; simpl. lia.
Qed.

Lemma full_index_sorted_le (lmax : Z) :
  StronglySorted (fun a b => lex_le a b = true) (full_index lmax).
Proof.
  eapply StronglySorted_weaken; [| apply full_index_sorted].
  intros x y. apply lex_lt_le.
Qed.

Lemma full_index_NoDup (lmax : Z) : NoDup (full_index lmax).
Proof.
  eapply StronglySorted_NoDup; [| apply full_index_sorted]. apply lex_lt_irrefl.
Qed.

Lemma NoDup_map_inj {A B : Type} (f : A -> B) (l : list A) :
  (forall x y, f x = f y -> x = y) -> NoDup l -> NoDup (map f l).
Proof.
  intros Hf. induction 1 as [| x l Hx Hn IH]; simpl; constructor; [| exact IH].
  rewrite in_map_iff. intros [y [E Hy]]. apply Hf in E. now subst.
Qed.

Lemma negm_involutive (k : key) : negm (negm k) = k.
Proof. destruct k as [l m]; unfold negm; simpl. f_equal; lia. Qed.

Lemma negm_injective (a b : key) : negm a = negm b -> a = b.
Proof. intros H. rewrite <- (negm_involutive a), H. apply negm_involutive. Qed.

Lemma swap_involutive (k : key) : swap (swap k) = k.
Proof. now destruct k. Qed.

Lemma swap_injective (a b : key) : swap a = swap b -> a = b.
Proof. intros H. rewrite <- (swap_involutive a), H. apply swap_involutive. Qed.

Lemma in_map_negm (k : key) (l : list key) : In k (map negm l) <-> In (negm k) l.
Proof.
  rewrite in_map_iff. split.
  - intros [x [<- H]]. now rewrite negm_involutive.
  - intros H. exists (negm k). split; [apply negm_involutive | exact H].
Qed.

Lemma in_map_swap (k : key) (l : list key) : In k (map swap l) <-> In (swap k) l.
Proof.
  rewrite in_map_iff. split.
  - intros [x [<- H]]. now rewrite swap_involutive.
  - intros H. exists (swap k). split; [apply swap_involutive | exact H].
Qed.

Lemma in_expanded_index (lmax : Z) (k : key) :
  In k (expanded_index lmax) <-> In k (full_index lmax).
Proof.
  destruct k as [l m]. unfold expanded_index.
  rewrite in_app_iff, filter_In, in_map_negm, in_full_index. unfold negm; simpl.
  rewrite !in_getlm_pairs, negb_true_iff, Z.eqb_neq. lia.
Qed.

Lemma expanded_index_NoDup (lmax : Z) : NoDup (expanded_index lmax).
Proof.
  unfold expanded_index. apply NoDup_app.
  - apply getlm_pairs_NoDup.
  - apply NoDup_filter, NoDup_map_inj; [apply negm_injective | apply getlm_pairs_NoDup].
  - intros [l m] H1 H2. apply filter_In in H2 as [H2 H3].
    apply in_map_negm in H2. unfold negm in H2; simpl in H2, H3.
    apply in_getlm_pairs in H1. apply in_getlm_pairs in H2.
    apply negb_true_iff, Z.eqb_neq in H3. lia.
Qed.

(** Sorted by degree and order, the expanded labels are the full index. *)
Lemma sort_expanded_index (lmax : Z) :
  sort_by lex_le (expanded_index lmax) = full_index lmax.
Proof.
  apply sort_by_unique.
  - apply lex_le_total.
  - apply lex_le_trans.
  - apply lex_le_antisym.
  - apply NoDup_Permutation;
      [apply expanded_index_NoDup | apply full_index_NoDup | apply in_expanded_index].
  - apply full_index_sorted_le.
Qed.

(** The full index is its own mirror. *)
Lemma sort_negm_full_index (lmax : Z) :
  sort_by lex_le (map negm (full_index lmax)) = full_index lmax.
Proof.
  apply sort_by_unique.
  - apply lex_le_total.
  - apply lex_le_trans.
  - apply lex_le_antisym.
  - apply NoDup_Permutation.
    + apply NoDup_map_inj; [apply negm_injective | apply full_index_NoDup].
    + apply full_index_NoDup.
    + intros [l m]. rewrite in_map_negm. unfold negm; simpl.
      rewrite !in_full_index. lia.
  - apply full_index_sorted_le.
Qed.

Lemma negm_full_index_perm (lmax : Z) :
  Permutation (map negm (full_index lmax)) (full_index lmax).
Proof.
  apply NoDup_Permutation.
  - apply NoDup_map_inj; [apply negm_injective | apply full_index_NoDup].
  - apply full_index_NoDup.
  - intros [l m]. rewrite in_map_negm. unfold negm; simpl.
    rewrite !in_full_index. lia.
Qed.

(** Its part at [m >= 0], sorted by order and then degree, is healpy's index. *)
Lemma sort_snd_nonneg_full_index (lmax : Z) :
  sort_by lex_le_snd (filter (fun k => 0 <=? snd k) (full_index lmax))
  = getlm_pairs lmax.
Proof.
  apply sort_by_unique.
  - apply lex_le_snd_total.
  - apply lex_le_snd_trans.
  - apply lex_le_snd_antisym.
  - apply NoDup_Permutation.
    + apply NoDup_filter, full_index_NoDup.
    + apply getlm_pairs_NoDup.
    + intros [l m]. rewrite filter_In, in_full_index, in_getlm_pairs; simpl.
      rewrite Z.leb_le. lia.
  - apply getlm_pairs_sorted_le.
Qed.

(** ** Series as tabulated functions *)

Lemma index_tab (F : key -> C) (idx : list key) : index (tab F idx) = idx.
Proof. unfold index, tab. rewrite map_map; simpl. apply map_id. Qed.

Lemma values_tab (F : key -> C) (idx : list key) : values (tab F idx) = map F idx.
Proof. unfold values, tab. rewrite map_map; reflexivity. Qed.

Lemma length_tab (F : key -> C) (idx : list key) : length (tab F idx) = length idx.
Proof. apply length_map. Qed.

Lemma tab_ext_in (F G : key -> C) (idx : list key) :
  (forall k, In k idx -> F k = G k) -> tab F idx = tab G idx.
Proof. intros H. apply map_ext_in. intros k Hk. now rewrite H. Qed.

Lemma tab_app (F : key -> C) (a b : list key) : tab F (a ++ b) = tab F a ++ tab F b.
Proof. apply map_app. Qed.

Lemma combine_tab (F : key -> C) (idx : list key) : combine idx (map F idx) = tab F idx.
Proof. apply combine_self_map. Qed.

Lemma combine_map_l {A B D : Type} (h : A -> B) (g : A -> D) (l : list A) :
  combine (map h l) (map g l) = map (fun x => (h x, g x)) l.
Proof. induction l as [| x l IH]; simpl; [reflexivity | now rewrite IH]. Qed.

Lemma combine_fst_snd {A B : Type} (l : list (A * B)) :
  combine (map fst l) (map snd l) = l.
Proof. rewrite combine_map_l. rewrite <- (map_id l) at 2. apply map_ext. now intros []. Qed.

Lemma lookup_tab (F : key -> C) (idx : list key) (k : key) :
  In k idx -> lookup k (tab F idx) = Some (F k).
Proof.
  induction idx as [| k' idx IH]; simpl; [tauto |].
  intros H. destruct (key_eqb k k') eqn:E.
  - apply key_eqb_eq in E. now subst.
  - apply IH. destruct H as [-> | H]; [| exact H]. now rewrite key_eqb_refl in E.
Qed.

Lemma lookup_tab_None (F : key -> C) (idx : list key) (k : key) :
  ~ In k idx -> lookup k (tab F idx) = None.
Proof.
  induction idx as [| k' idx IH]; simpl; [reflexivity |].
  intros H. destruct (key_eqb k k') eqn:E.
  - apply key_eqb_eq in E. exfalso. apply H. left. now symmetry.
  - apply IH. intros Hin. apply H. now right.
Qed.

(** An array as long as a duplicate-free index tabulates a function over it. *)
Lemma lookup_or_tab (d : C) (F : key -> C) (idx : list key) (k : key) :
  In k idx -> lookup_or d k (tab F idx) = F k.
Proof. intros H. unfold lookup_or. now rewrite lookup_tab. Qed.

Lemma lookup_or_tab_out (d : C) (F : key -> C) (idx : list key) (k : key) :
  ~ In k idx -> lookup_or d k (tab F idx) = d.
Proof. intros H. unfold lookup_or. now rewrite lookup_tab_None. Qed.

Lemma list_as_map (idx : list key) (d : list C) :
  NoDup idx -> length d = length idx ->
  d = map (fun k => lookup_or c0 k (combine idx d)) idx.
Proof.
  intros Hn; revert d; induction Hn as [| k idx Hk Hn IH]; intros [| v d] Hl;
    simpl in Hl; try discriminate; [reflexivity |].
  cbn [combine map]. f_equal.
  - unfold lookup_or; simpl. now rewrite key_eqb_refl.
  - rewrite (IH d) at 1 by lia. apply map_ext_in. intros k' Hk'.
    unfold lookup_or; simpl. destruct (key_eqb k' k) eqn:E; [| reflexivity].
    apply key_eqb_eq in E. now subst.
Qed.

Lemma smap_tab (g : C -> C) (F : key -> C) (idx : list key) :
  smap g (tab F idx) = tab (fun k => g (F k)) idx.
Proof. unfold smap, tab. rewrite map_map. reflexivity. Qed.

Lemma series_binop_tab (f : C -> C -> C) (F G : key -> C) (idx : list key) :
  series_binop f (tab F idx) (tab G idx) = Ok (tab (fun k => f (F k) (G k)) idx).
Proof.
  rewrite series_binop_same by (now rewrite !index_tab). f_equal.
  unfold tab. rewrite combine_map_l, map_map. reflexivity.
Qed.

Lemma drop_level_tab (proj : key -> Z) (lab : Z) (F : key -> C) (idx : list key) :
  drop_level proj lab (tab F idx) = tab F (filter (fun k => negb (proj k =? lab)) idx).
Proof.
  unfold drop_level, tab. induction idx as [| k idx IH]; simpl; [reflexivity |].
  destruct (proj k =? lab); simpl; now rewrite IH.
Qed.

Lemma sort_index_tab (F : key -> C) (idx : list key) :
  sort_index (tab F idx) = tab F (sort_by lex_le idx).
Proof. unfold sort_index, tab. now apply sort_by_map. Qed.

Lemma sort_index_snd_tab (F : key -> C) (idx : list key) :
  sort_index_snd (tab F idx) = tab F (sort_by lex_le_snd idx).
Proof. unfold sort_index_snd, tab. now apply sort_by_map. Qed.

Lemma pd_Series_map (F : key -> C) (idx : list key) :
  pd_Series (map F idx) idx = Ok (tab F idx).
Proof.
  unfold pd_Series. rewrite length_map, Nat.eqb_refl. now rewrite combine_tab.
Qed.

(** Re-indexing through a one-to-one relabelling [h] that undoes itself. *)
Lemma tab_relabel (h : key -> key) (F : key -> C) (idx : list key) :
  (forall k, h (h k) = k) ->
  map (fun k => (h k, F k)) idx = tab (fun k => F (h k)) (map h idx).
Proof.
  intros Hh. unfold tab. rewrite map_map. apply map_ext. intros k. now rewrite Hh.
Qed.

Lemma arr_mul_series_tab (s : key -> Z) (G : key -> C) (idx : list key) :
  arr_mul_series (map s idx) (tab G idx)
  = Ok (tab (fun k => cmul (ZtoC (s k)) (G k)) idx).
Proof.
  unfold arr_mul_series. rewrite length_map, length_tab, Nat.eqb_refl. f_equal.
  unfold tab. rewrite combine_map_l, map_map. reflexivity.
Qed.

Lemma series_mul_arr_tab (s : key -> Z) (G : key -> C) (idx : list key) :
  series_mul_arr (tab G idx) (map s idx)
  = Ok (tab (fun k => cmul (G k) (ZtoC (s k))) idx).
Proof.
  unfold series_mul_arr. rewrite length_map, length_tab, Nat.eqb_refl. f_equal.
  unfold tab. rewrite combine_map_l, map_map. reflexivity.
Qed.

Lemma bool_select_tab (b : key -> bool) (F : key -> C) (idx : list key) :
  bool_select (tab F idx) (map b idx) = Ok (tab F (filter b idx)).
Proof.
  unfold bool_select. rewrite length_map, length_tab, Nat.eqb_refl. f_equal.
  unfold tab. rewrite combine_map_l.
  induction idx as [| k idx IH]; simpl; [reflexivity |].
  destruct (b k); simpl; now rewrite IH.
Qed.

(** ** Operations on two Series whose rows are in different orders *)







(** ** The analyser *)

Lemma getlm_neg_idx (lmax : Z) :
  combine (fst (getlm lmax)) (map Z.opp (snd (getlm lmax)))
  = map negm (getlm_pairs lmax).
Proof.
  unfold getlm; simpl. rewrite map_map, combine_map_l. reflexivity.
Qed.

Lemma np_mul_int_map (F : key -> C) (s : key -> Z) (idx : list key) :
  np_mul_int (map conj (map F idx)) (map s idx)
  = Ok (map (fun k => cmul (conj (F k)) (ZtoC (s k))) idx).
Proof.
  unfold np_mul_int. rewrite !length_map, Nat.eqb_refl. f_equal.
  rewrite map_map, combine_map_l, map_map. reflexivity.
Qed.

Lemma expand_half_tab (F : key -> C) (lmax : Z) :
  expand_half (map F (getlm_pairs lmax)) lmax
  = Ok (tab (mirror F) (full_index lmax)).
Proof.
  unfold expand_half.
  pose proof (getlm_neg_idx lmax) as Hneg. unfold getlm in *; simpl in Hneg.
  cbv zeta. rewrite combine_fst_snd, Hneg, pd_Series_map. cbn [bind].
  rewrite (map_map snd pow_m1), np_mul_int_map. cbn [bind].
  unfold pd_Series. rewrite !length_map, Nat.eqb_refl. cbn [bind].
  f_equal. rewrite combine_map_l.
  rewrite (tab_relabel negm (fun k => cmul (conj (F k)) (ZtoC (pow_m1 (snd k)))))
    by apply negm_involutive.
  rewrite drop_level_tab.
  rewrite (tab_ext_in F (mirror F) (getlm_pairs lmax)).
  2:{ intros [l m] H. apply in_getlm_pairs in H. unfold mirror; simpl.
      destruct (0 <=? m) eqn:E; [reflexivity |]. apply Z.leb_gt in E. lia. }
  rewrite (tab_ext_in _ (mirror F)
             (filter (fun k => negb (snd k =? 0)) (map negm (getlm_pairs lmax)))).
  2:{ intros [l m] H. apply filter_In in H as [H1 H2]. apply in_map_negm in H1.
      unfold negm in H1; simpl in H1, H2. apply in_getlm_pairs in H1.
      apply negb_true_iff, Z.eqb_neq in H2. unfold mirror, negm; simpl.
      destruct (0 <=? m) eqn:E; [apply Z.leb_le in E; lia | reflexivity]. }
  rewrite <- tab_app, sort_index_tab. f_equal. apply sort_expanded_index.
Qed.

Lemma expand_half_length (d : list C) (lmax : Z) :
  length d <> getsize lmax -> expand_half d lmax = Err ValueError.
Proof.
  intros H. unfold expand_half, getlm. cbv zeta. rewrite combine_fst_snd.
  unfold pd_Series at 1. fold (getsize lmax).
  apply Nat.eqb_neq in H. now rewrite H.
Qed.

(** What [expand_half] does on any array: gives up unless the array has one
    entry per label of healpy's index, and then returns the mirrored set. *)
Lemma expand_half_cases (d : list C) (lmax : Z) :
  (length d <> getsize lmax /\ expand_half d lmax = Err ValueError)
  \/ (exists F, d = map F (getlm_pairs lmax)
                /\ expand_half d lmax = Ok (tab (mirror F) (full_index lmax))).
Proof.
  destruct (Nat.eq_dec (length d) (getsize lmax)) as [E | E].
  - right. exists (fun k => lookup_or c0 k (combine (getlm_pairs lmax) d)).
    pose proof (list_as_map (getlm_pairs lmax) d (getlm_pairs_NoDup lmax) E) as Hd.
    split; [exact Hd |]. rewrite Hd at 1. apply expand_half_tab.
  - left. split; [exact E | now apply expand_half_length].
Qed.

Lemma Alm_getlm_nonneg (lmax : Z) : 0 <= lmax -> Alm_getlm lmax = Ok (getlm lmax).
Proof.
  intros H. unfold Alm_getlm. destruct (lmax <? 0) eqn:E; [| reflexivity].
  apply Z.ltb_lt in E. lia.
Qed.

Lemma Alm_getlm_negative (lmax : Z) : lmax < 0 -> Alm_getlm lmax = Err ValueError.
Proof. intros H. unfold Alm_getlm. apply Z.ltb_lt in H. now rewrite H. Qed.

(** The analyser on two half sets of the right size. *)
Lemma analyser_tab (mask_bad : list fl -> list bool)
  (map2alm : masked -> Z -> result (list C)) (X : list cpix) (lmax : Z)
  (FR FI : key -> C) :
  0 <= lmax ->
  map2alm (fst (masked_parts mask_bad X)) lmax = Ok (map FR (getlm_pairs lmax)) ->
  map2alm (snd (masked_parts mask_bad X)) lmax = Ok (map FI (getlm_pairs lmax)) ->
  cmplx_map_2_full_alm mask_bad map2alm X lmax
  = Ok (tab (fun k => cadd (mirror FR k) (cmul c1j (mirror FI k))) (full_index lmax)).
Proof.
  intros Hl HR HI. unfold cmplx_map_2_full_alm.
  rewrite (Alm_getlm_nonneg lmax Hl). cbn [bind].
  destruct (masked_parts mask_bad X) as [rm im]. simpl in HR, HI.
  rewrite HR, HI. cbn [bind]. rewrite !expand_half_tab. cbn [bind].
  rewrite smap_tab. unfold series_add. apply series_binop_tab.
Qed.

(** Whatever the analyser returns is a tabulation over the full index. *)
Lemma analyser_result (mask_bad : list fl -> list bool)
  (map2alm : masked -> Z -> result (list C)) (X : list cpix) (lmax : Z)
  (alm : Series key) :
  cmplx_map_2_full_alm mask_bad map2alm X lmax = Ok alm ->
  exists FR FI,
    map2alm (fst (masked_parts mask_bad X)) lmax = Ok (map FR (getlm_pairs lmax))
    /\ map2alm (snd (masked_parts mask_bad X)) lmax = Ok (map FI (getlm_pairs lmax))
    /\ alm = tab (fun k => cadd (mirror FR k) (cmul c1j (mirror FI k)))
                 (full_index lmax).
Proof.
  intros H. pose proof H as H0. unfold cmplx_map_2_full_alm in H.
  destruct (Z_lt_le_dec lmax 0) as [Hneg | Hl];
    [rewrite (Alm_getlm_negative lmax Hneg) in H; discriminate |].
  rewrite (Alm_getlm_nonneg lmax Hl) in H. cbn [bind] in H.
  destruct (masked_parts mask_bad X) as [rm im] eqn:EM.
  destruct (map2alm rm lmax) as [ra | e] eqn:ER; [| discriminate].
  destruct (map2alm im lmax) as [ia | e] eqn:EI; [| discriminate].
  cbn [bind] in H.
  destruct (expand_half_cases ra lmax) as [[_ E1] | [FR [Hra E1]]];
    rewrite E1 in H; [discriminate |].
  destruct (expand_half_cases ia lmax) as [[_ E2] | [FI [Hia E2]]];
    rewrite E2 in H; [discriminate |].
  exists FR, FI. subst ra ia.
  rewrite (analyser_tab mask_bad map2alm X lmax FR FI Hl) in H0
    by (rewrite EM; assumption).
  simpl. repeat split; try assumption. now inversion H0.
Qed.

Lemma mirror_pos (F : key -> C) (k : key) : 0 <= snd k -> mirror F k = F k.
Proof.
  intros H. unfold mirror. destruct (0 <=? snd k) eqn:E; [reflexivity |].
  apply Z.leb_gt in E. lia.
Qed.

Lemma mirror_neg (F : key -> C) (k : key) :
  0 < snd k -> mirror F (negm k) = cmul (conj (F k)) (ZtoC (pow_m1 (snd k))).
Proof.
  intros H. unfold mirror. rewrite negm_involutive.
  destruct k as [l m]; simpl in *.
  destruct (0 <=? - m) eqn:E; [apply Z.leb_le in E; lia |].
  now rewrite Z.opp_involutive.
Qed.

Lemma negm_zero (k : key) : snd k = 0 -> negm k = k.
Proof. destruct k as [l m]; unfold negm; simpl. now intros ->. Qed.

Lemma map_const_repeat {A B : Type} (c : B) (l : list A) :
  map (fun _ => c) l = repeat c (length l).
Proof. induction l as [| x l IH]; simpl; [reflexivity | now rewrite IH]. Qed.

(** C3. For a real-valued map [R] (every imaginary part is zero) and a
    degree [lmax >= 0], when the transform of its real part returns one
    coefficient per label and the transform of the zero map returns zeros,
    the analyser returns a full set with
    [a_(l,-m) = (-1)^m * conj (a_(l,m))] for all [0 < m <= l <= lmax]. *)
Theorem real_map_conjugate_symmetry (mask_bad : list fl -> list bool)
  (map2alm : masked -> Z -> result (list C)) (R : list cpix) (lmax : Z)
  (real_alm : list C) :
  0 <= lmax ->
  (forall p, In p R -> pim p = Fin 0%Qc) ->
  map2alm (mkMasked (map pre R) (map np_isnan R)) lmax = Ok real_alm ->
  length real_alm = getsize lmax ->
  map2alm (mkMasked (map (fun _ => Fin 0%Qc) R) (map np_isnan R)) lmax
  = Ok (repeat c0 (getsize lmax)) ->
  exists alm,
    cmplx_map_2_full_alm mask_bad map2alm R lmax = Ok alm
    /\ forall l m, 0 < m <= l -> l <= lmax ->
         exists a, lookup (l, m) alm = Some a
                   /\ lookup (l, - m) alm = Some (cmul (ZtoC (pow_m1 m)) (conj a)).
Proof.
  intros Hl0 Hreal HR Hlen HI.
  pose proof (list_as_map (getlm_pairs lmax) real_alm (getlm_pairs_NoDup lmax) Hlen) as Hra.
  set (FR := fun k => lookup_or c0 k (combine (getlm_pairs lmax) real_alm)) in Hra.
  set (FI := fun _ : key => c0).
  assert (Him : map pim R = map (fun _ => Fin 0%Qc) R)
    by (apply map_ext_in; exact Hreal).
  eexists. split.
  - apply (analyser_tab mask_bad map2alm R lmax FR FI Hl0);
      unfold masked_parts, set_mask, hp_ma; cbn [fst snd data].
    + rewrite HR. f_equal. exact Hra.
    + rewrite Him, HI. unfold FI, getsize. now rewrite map_const_repeat.
  - intros l m Hm Hl.
    exists (cadd (mirror FR (l, m)) (cmul c1j (mirror FI (l, m)))). split.
    + rewrite lookup_tab by (apply in_full_index; lia). reflexivity.
    + rewrite lookup_tab by (apply in_full_index; lia). f_equal.
      change (l, - m) with (negm (l, m)).
      rewrite !mirror_neg, !mirror_pos by (simpl; lia). unfold FI; simpl snd.
      destruct (pow_m1_cases m) as [-> | ->]; [lia | |];
        rewrite ?ZtoC_1, ?ZtoC_m1; apply c_eq; simpl; ring.
Qed.

Lemma real_map_conjugate_symmetry_witness :
  exists alm,
    cmplx_map_2_full_alm Sample.mask_bad Sample.map2alm
      [mkPix (Fin 1%Qc) (Fin 0%Qc); mkPix NaN (Fin 0%Qc)] 2 = Ok alm
    /\ forall l m, 0 < m <= l -> l <= 2 ->
         exists a, lookup (l, m) alm = Some a
                   /\ lookup (l, - m) alm = Some (cmul (ZtoC (pow_m1 m)) (conj a)).
Proof.
  apply (real_map_conjugate_symmetry Sample.mask_bad Sample.map2alm
           [mkPix (Fin 1%Qc) (Fin 0%Qc); mkPix NaN (Fin 0%Qc)] 2
           [RtoC 1%Qc; c0; c0; c0; c0; c0]).
  - lia.
  - simpl. intros p [<- | [<- | []]]; reflexivity.
  - reflexivity.
  - reflexivity.
  - reflexivity.
Defined.

(** ** The synthesiser *)

Lemma series_as_tab (s : Series key) :
  NoDup (index s) -> s = tab (fun k => lookup_or c0 k s) (index s).
Proof.
  intros Hn.
  assert (Hs : s = combine (index s) (values s)).
  { unfold index, values. now rewrite combine_fst_snd. }
  pose proof (list_as_map (index s) (values s) Hn) as Hv.
  rewrite <- Hs in Hv.
  rewrite Hs at 1. rewrite Hv by (unfold index, values; now rewrite !length_map).
  apply combine_tab.
Qed.

Lemma split_alm_tab (G : key -> C) (lmax : Z) :
  split_alm (tab G (full_index lmax))
  = Ok (tab (re_part G) (full_index lmax), tab (im_part G) (full_index lmax)).
Proof.
  unfold split_alm. cbv zeta. rewrite index_tab.
  rewrite (map_map snd Z.opp), combine_map_l.
  unfold set_index. rewrite values_tab.
  change (map (fun x : key => (fst x, - snd x)) (full_index lmax))
    with (map negm (full_index lmax)).
  rewrite combine_map_l.
  rewrite (tab_relabel negm G) by apply negm_involutive.
  rewrite sort_index_tab, sort_negm_full_index, smap_tab.
  rewrite (map_map snd (fun m => pow_m1 (Z.abs m))).
  rewrite (arr_mul_series_tab (fun k => pow_m1 (Z.abs (snd k)))). cbn [bind].
  unfold series_add. rewrite series_binop_tab. cbn [bind].
  rewrite smap_tab, series_binop_tab. cbn [bind].
  rewrite !smap_tab. reflexivity.
Qed.

Lemma to_healpy_tab (H : key -> C) (lmax : Z) :
  to_healpy (tab H (full_index lmax)) (map snd (full_index lmax))
  = Ok (map H (getlm_pairs lmax)).
Proof.
  unfold to_healpy. rewrite (map_map snd (fun m => 0 <=? m)).
  rewrite (bool_select_tab (fun k => 0 <=? snd k)). cbn [bind].
  now rewrite sort_index_snd_tab, sort_snd_nonneg_full_index, values_tab.
Qed.





(** ** Round trip *)

Lemma half_set_as_map (d : list C) (lmax : Z) :
  length d = getsize lmax -> exists F, d = map F (getlm_pairs lmax).
Proof.
  intros H. eexists. apply (list_as_map _ _ (getlm_pairs_NoDup lmax) H).
Qed.

Lemma m0_real_map (F : key -> C) (lmax : Z) :
  m0_real lmax (map F (getlm_pairs lmax)) = true ->
  forall k, In k (getlm_pairs lmax) -> snd k = 0 -> im (F k) = 0%Qc.
Proof.
  unfold m0_real. rewrite combine_tab, forallb_forall. intros H k Hk H0.
  specialize (H (k, F k)). simpl in H. rewrite H0 in H. simpl in H.
  apply Qc_eqb_eq, H. unfold tab. apply in_map_iff. now exists k.
Qed.

(** Splitting the combination of two mirrored half sets gives them back. *)
Lemma split_of_combination (FR FI : key -> C) (k : key) :
  0 <= snd k ->
  (snd k = 0 -> im (FR k) = 0%Qc /\ im (FI k) = 0%Qc) ->
  let G := fun k => cadd (mirror FR k) (cmul c1j (mirror FI k)) in
  re_part G k = FR k /\ im_part G k = FI k.
Proof.
  intros Hk H0. cbv zeta. unfold re_part, im_part.
  destruct (Z.eq_dec (snd k) 0) as [E | E].
  - rewrite (negm_zero k E), !mirror_pos by lia. rewrite E. simpl Z.abs.
    rewrite pow_m1_0, ZtoC_1. destruct (H0 E) as [HR HI].
    destruct (FR k) as [a b], (FI k) as [c d]. simpl in HR, HI. subst b d.
    split; apply c_eq; simpl; unfold half; field; exact two_neq_0.
  - assert (Hpos : 0 < snd k) by lia.
    rewrite !mirror_neg, !mirror_pos by lia. rewrite Z.abs_eq by lia.
    destruct (FR k) as [a b], (FI k) as [c d].
    destruct (pow_m1_cases (snd k)) as [-> | ->]; [lia | |];
      rewrite ?ZtoC_1, ?ZtoC_m1;
      split; apply c_eq; simpl; unfold half; field; exact two_neq_0.
Qed.

Lemma np_complex_pixels (X : list cpix) (rmap imap : list Qc) :
  map Fin rmap = map pre X -> map Fin imap = map pim X ->
  exists Y, np_complex rmap imap = Ok Y /\ map pix_of_C Y = X.
Proof.
  intros Hr Hi. unfold np_complex.
  assert (Hlen : length rmap = length imap).
  { apply (f_equal (@length _)) in Hr, Hi. rewrite !length_map in Hr, Hi. lia. }
  rewrite Hlen, Nat.eqb_refl. eexists; split; [reflexivity |].
  clear Hlen. revert rmap imap Hr Hi.
  induction X as [| p X IH]; intros [| r rmap] [| i imap] Hr Hi;
    simpl in *; try discriminate; [reflexivity |].
  inversion Hr as [[Hr1 Hr2]]. inversion Hi as [[Hi1 Hi2]].
  f_equal; [| now apply IH].
  destruct p as [pr pi]; simpl in *. subst pr pi. unfold pix_of_C; simpl.
  f_equal; f_equal; ring.
Qed.

Lemma no_nan_mask (X : list cpix) :
  (forall p, In p X -> np_isnan p = false) ->
  map np_isnan X = repeat false (length X).
Proof.
  intros H. rewrite <- map_const_repeat. apply map_ext_in. exact H.
Qed.

(** C1.  Let [lmax >= 0] and let [X] be a complex map without masked
    pixels whose real and
    imaginary parts are exactly band-limited at [lmax]: the real transform
    returns one coefficient per label for each, real at [m = 0], and
    synthesising these coefficients at [nside] gives the part back.  Then
    analysing [X] and synthesising the result returns [X].  (Exact
    arithmetic stands for "to floating-point precision"; how close the
    external transform comes to this on smooth maps is a matter of its
    numerics and is not part of the statement.) *)
Theorem round_trip (mask_bad : list fl -> list bool)
  (map2alm : masked -> Z -> result (list C))
  (alm2map : list C -> Z -> option Z -> result (list Qc))
  (X : list cpix) (lmax nside : Z) (real_alm imag_alm : list C)
  (re_map im_map : list Qc) :
  0 <= lmax ->
  (forall p, In p X -> np_isnan p = false) ->
  map2alm (mkMasked (map pre X) (repeat false (length X))) lmax = Ok real_alm ->
  map2alm (mkMasked (map pim X) (repeat false (length X))) lmax = Ok imag_alm ->
  length real_alm = getsize lmax ->
  length imag_alm = getsize lmax ->
  m0_real lmax real_alm = true ->
  m0_real lmax imag_alm = true ->
  alm2map real_alm nside (Some lmax) = Ok re_map ->
  alm2map imag_alm nside (Some lmax) = Ok im_map ->
  map Fin re_map = map pre X ->
  map Fin im_map = map pim X ->
  exists alm Y,
    cmplx_map_2_full_alm mask_bad map2alm X lmax = Ok alm
    /\ full_alm_2_cmplx_map alm2map alm (Some nside) (Some lmax) = Ok Y
    /\ map pix_of_C Y = X.
Proof.
  intros Hl0 Hnan HR HI HlR HlI H0R H0I HsR HsI HmR HmI.
  destruct (half_set_as_map real_alm lmax HlR) as [FR ER].
  destruct (half_set_as_map imag_alm lmax HlI) as [FI EI].
  subst real_alm imag_alm.
  destruct (np_complex_pixels X re_map im_map HmR HmI) as [Y [HY HX]].
  exists (tab (fun k => cadd (mirror FR k) (cmul c1j (mirror FI k))) (full_index lmax)), Y.
  split; [| split; [| exact HX]].
  - apply (analyser_tab _ _ _ _ _ _ Hl0);
      unfold masked_parts, set_mask, hp_ma; cbn [fst snd data];
      rewrite no_nan_mask by exact Hnan; assumption.
  - unfold full_alm_2_cmplx_map. cbv zeta. rewrite index_tab, split_alm_tab.
    cbn [bind]. rewrite !to_healpy_tab. cbn [bind].
    assert (Hsplit : forall k, In k (getlm_pairs lmax) ->
              re_part (fun k => cadd (mirror FR k) (cmul c1j (mirror FI k))) k = FR k
              /\ im_part (fun k => cadd (mirror FR k) (cmul c1j (mirror FI k))) k = FI k).
    { intros [l m] Hk. apply split_of_combination.
      - apply in_getlm_pairs in Hk. simpl; lia.
      - intros E. split;
          [now apply (m0_real_map FR lmax) | now apply (m0_real_map FI lmax)]. }
    match goal with |- bind ?a _ = _ => assert (Ha : a = Ok re_map) end.
    { rewrite <- HsR. f_equal. apply map_ext_in. intros k Hk. apply Hsplit, Hk. }
    rewrite Ha. cbn [bind].
    match goal with |- bind ?a _ = _ => assert (Hb : a = Ok im_map) end.
    { rewrite <- HsI. f_equal. apply map_ext_in. intros k Hk. apply Hsplit, Hk. }
    rewrite Hb. cbn [bind]. exact HY.
Qed.

(** A constant map on the 12 pixels of [nside = 1]. *)
Lemma round_trip_witness :
  let X := repeat (mkPix (Fin 1%Qc) (Fin (1 + 1)%Qc)) 12 in
  exists alm Y,
    cmplx_map_2_full_alm Sample.mask_bad Sample.map2alm X 1 = Ok alm
    /\ full_alm_2_cmplx_map Sample.alm2map alm (Some 1) (Some 1) = Ok Y
    /\ map pix_of_C Y = X.
Proof.
  cbv zeta.
  apply (round_trip Sample.mask_bad Sample.map2alm Sample.alm2map
           (repeat (mkPix (Fin 1%Qc) (Fin (1 + 1)%Qc)) 12) 1 1
           [RtoC 1%Qc; c0; c0] [RtoC (1 + 1)%Qc; c0; c0]
           (repeat 1%Qc 12) (repeat (1 + 1)%Qc 12)).
  - lia.
  - intros p Hp. apply repeat_spec in Hp. subst p. reflexivity.
  - reflexivity.
  - reflexivity.
  - reflexivity.
  - reflexivity.
  - vm_compute; reflexivity.
  - vm_compute; reflexivity.
  - reflexivity.
  - reflexivity.
  - reflexivity.
  - reflexivity.
Defined.

(** ** The random coefficient sets *)

Lemma negfst_involutive (k : key) : negfst (negfst k) = k.
Proof. destruct k as [m l]; unfold negfst; simpl. f_equal; lia. Qed.

Lemma negfst_injective (a b : key) : negfst a = negfst b -> a = b.
Proof. intros H. rewrite <- (negfst_involutive a), H. apply negfst_involutive. Qed.

Lemma in_map_negfst (k : key) (l : list key) : In k (map negfst l) <-> In (negfst k) l.
Proof.
  rewrite in_map_iff. split.
  - intros [x [<- H]]. now rewrite negfst_involutive.
  - intros H. exists (negfst k). split; [apply negfst_involutive | exact H].
Qed.

Lemma getlm_mpos_idx (lmax : Z) :
  combine (snd (getlm lmax)) (fst (getlm lmax)) = map swap (getlm_pairs lmax).
Proof. unfold getlm; simpl. now rewrite combine_map_l. Qed.

Lemma getlm_mneg_idx (lmax : Z) :
  combine (map Z.opp (snd (getlm lmax))) (fst (getlm lmax))
  = map negfst (map swap (getlm_pairs lmax)).
Proof. unfold getlm; simpl. now rewrite !map_map, combine_map_l. Qed.

Lemma getlm_m_arr (lmax : Z) :
  snd (getlm lmax) = map fst (map swap (getlm_pairs lmax)).
Proof. unfold getlm; simpl. now rewrite map_map. Qed.

(** A generated array of the right size, as a Series over [(m, l)]. *)
Lemma pd_Series_mpos (F : key -> C) (lmax : Z) :
  pd_Series (map F (getlm_pairs lmax)) (map swap (getlm_pairs lmax))
  = Ok (tab (fun k => F (swap k)) (map swap (getlm_pairs lmax))).
Proof.
  unfold pd_Series. rewrite !length_map, Nat.eqb_refl. f_equal.
  rewrite combine_map_l. apply tab_relabel, swap_involutive.
Qed.

Lemma pos_assembly_tab (R I : key -> C) (P : list key) :
  pos_assembly (tab R P) (tab I P) = Ok (tab (pos_value R I) P).
Proof.
  unfold pos_assembly, series_add. rewrite smap_tab. apply series_binop_tab.
Qed.

Lemma neg_assembly_tab (R I : key -> C) (P : list key) :
  neg_assembly (tab R P) (tab I P) (map fst P) (map negfst P)
  = Ok (tab (fun k => neg_value R I (negfst k)) (map negfst P)).
Proof.
  unfold neg_assembly, series_sub. rewrite smap_tab, series_binop_tab. cbn [bind].
  rewrite smap_tab, (map_map fst pow_m1).
  rewrite (series_mul_arr_tab (fun k => pow_m1 (fst k))). cbn [bind]. f_equal.
  unfold set_index. rewrite values_tab, combine_map_l.
  apply (tab_relabel negfst (neg_value R I)), negfst_involutive.
Qed.

(** ** The self-consistency assertion *)

Lemma filter_tab_m0 (V : key -> C) (idx : list key) :
  filter (fun e : key * C => fst (fst e) =? 0) (tab V idx)
  = tab V (filter (fun k => fst k =? 0) idx).
Proof.
  unfold tab. induction idx as [| k idx IH]; simpl; [reflexivity |].
  destruct (fst k =? 0); simpl; now rewrite IH.
Qed.

Lemma loc_tab (V : key -> C) (idx : list key) :
  loc 0 (tab V idx)
  = match filter (fun k => fst k =? 0) idx with
    | [] => Err KeyError
    | r => Ok (map (fun k => (snd k, V k)) r)
    end.
Proof.
  unfold loc.
  match goal with
  | |- context [filter ?p (tab V idx)] =>
      replace (filter p (tab V idx)) with (tab V (filter (fun k => fst k =? 0) idx))
        by (symmetry; apply filter_tab_m0)
  end.
  destruct (filter (fun k => fst k =? 0) idx) as [| k r]; [reflexivity |].
  unfold tab. cbn [map]. f_equal. cbn [fst snd]. f_equal. rewrite map_map. reflexivity.
Qed.

Lemma filter_m0_negfst (P : list key) :
  filter (fun k => fst k =? 0) (map negfst P)
  = map negfst (filter (fun k => fst k =? 0) P).
Proof.
  induction P as [| k P IH]; simpl; [reflexivity |].
  replace (- fst k =? 0) with (fst k =? 0)
    by (destruct (fst k =? 0) eqn:E; symmetry;
        [apply Z.eqb_eq in E; apply Z.eqb_eq; lia
        | apply Z.eqb_neq in E; apply Z.eqb_neq; lia]).
  destruct (fst k =? 0); simpl; now rewrite IH.
Qed.

Lemma all_equal_refl (r : Series Z) : all_equal r r = Ok true.
Proof.
  unfold all_equal. rewrite list_eqb_refl by apply Z.eqb_refl. f_equal.
  apply forallb_forall. intros [[k1 v1] [k2 v2]] H. simpl.
  assert (E : (k1, v1) = (k2, v2)).
  { clear -H. induction r as [| x r IH]; simpl in H; [tauto |].
    destruct H as [H | H]; [now inversion H | now apply IH]. }
  inversion E; subst. now apply ceqb_eq.
Qed.

(** At [m = 0], with real generated entries, the two assemblies agree. *)
Lemma m0_values_agree (R I : key -> C) (k : key) :
  fst k = 0 -> im (R k) = 0%Qc -> im (I k) = 0%Qc ->
  neg_value R I k = pos_value R I k.
Proof.
  intros Hk HR HI. unfold neg_value, pos_value. rewrite Hk, pow_m1_0, ZtoC_1.
  destruct (R k) as [a b], (I k) as [c d]. simpl in HR, HI. subst b d.
  apply c_eq; simpl; ring.
Qed.

Lemma m0_rows_agree (R I : key -> C) (P : list key) :
  (forall k, In k P -> fst k = 0 -> im (R k) = 0%Qc /\ im (I k) = 0%Qc) ->
  loc 0 (tab (fun k => neg_value R I (negfst k)) (map negfst P))
  = loc 0 (tab (pos_value R I) P).
Proof.
  intros H0. rewrite !loc_tab, filter_m0_negfst.
  assert (Hin : forall k, In k (filter (fun k => fst k =? 0) P) -> In k P /\ fst k = 0).
  { intros k Hk. apply filter_In in Hk as [Hk E]. now apply Z.eqb_eq in E. }
  destruct (filter (fun k => fst k =? 0) P) as [| k r]; [reflexivity |].
  change (Ok (map (fun k0 : key => (snd k0, neg_value R I (negfst k0)))
                  (map negfst (k :: r)))
          = Ok (map (fun k0 : key => (snd k0, pos_value R I k0)) (k :: r))).
  f_equal. rewrite map_map. apply map_ext_in. intros k' Hk'.
  destruct (Hin k' Hk') as [HP E]. destruct (H0 k' HP E) as [HR HI].
  rewrite negfst_involutive. unfold negfst; simpl. f_equal.
  now apply m0_values_agree.
Qed.

Lemma loc_tab_Ok (V : key -> C) (P : list key) (k : key) :
  In k P -> fst k = 0 -> exists r, loc 0 (tab V P) = Ok r.
Proof.
  intros Hk E. rewrite loc_tab.
  assert (Hin : In k (filter (fun k => fst k =? 0) P))
    by (apply filter_In; split; [exact Hk | now apply Z.eqb_eq]).
  destruct (filter (fun k => fst k =? 0) P) as [| k' r]; [destruct Hin |].
  eexists; reflexivity.
Qed.

Lemma in_mpos_00 (lmax : Z) : 0 <= lmax -> In (0, 0) (map swap (getlm_pairs lmax)).
Proof.
  intros H. apply in_map_swap. unfold swap; cbn [fst snd].
  apply in_getlm_pairs. lia.
Qed.

Lemma m0_real_swapped (F : key -> C) (lmax : Z) :
  m0_real lmax (map F (getlm_pairs lmax)) = true ->
  forall k, In k (map swap (getlm_pairs lmax)) -> fst k = 0 -> im (F (swap k)) = 0%Qc.
Proof.
  intros H k Hk E. apply (m0_real_map F lmax H); [now apply in_map_swap | exact E].
Qed.

(** With real [m = 0] entries the condition of the [assert] holds and
    [assemble] returns the merged, sorted Series. *)
Lemma assemble_tab (FR FI : key -> C) (lmax : Z) :
  0 <= lmax ->
  m0_real lmax (map FR (getlm_pairs lmax)) = true ->
  m0_real lmax (map FI (getlm_pairs lmax)) = true ->
  let P := map swap (getlm_pairs lmax) in
  let R := fun k => FR (swap k) in
  let I := fun k => FI (swap k) in
  let almp := tab (pos_value R I) P in
  let almn := tab (fun k => neg_value R I (negfst k)) (map negfst P) in
  loc 0 almn = loc 0 almp
  /\ m0_rows_match almn almp = Ok true
  /\ assemble (tab R P) (tab I P) (map fst P) (map negfst P)
     = Ok (sort_index (swaplevel (add_fill almp (drop_level fst 0 almn) c0))).
Proof.
  intros Hl H0R H0I P R I almp almn.
  assert (Hrows : loc 0 almn = loc 0 almp).
  { apply m0_rows_agree. intros k Hk E. split;
      [now apply (m0_real_swapped FR lmax) | now apply (m0_real_swapped FI lmax)]. }
  destruct (loc_tab_Ok (pos_value R I) P (0, 0) (in_mpos_00 lmax Hl) eq_refl)
    as [rows Hp].
  assert (Hmatch : m0_rows_match almn almp = Ok true).
  { unfold m0_rows_match. rewrite Hrows. fold almp in Hp. rewrite Hp. cbn [bind].
    apply all_equal_refl. }
  split; [exact Hrows | split; [exact Hmatch |]].
  unfold assemble. rewrite pos_assembly_tab, neg_assembly_tab. cbn [bind].
  fold almp almn. rewrite Hmatch. reflexivity.
Qed.

(** C7. For two generated half sets of the right size whose [m = 0]
    entries are real, the [m = 0] rows of the positive assembly
    [r + 1j*i] and of the negative assembly [conj (r - 1j*i) * (-1)^m] are
    the same rows, the condition of the [assert] evaluates to true, and
    [assemble] goes on to return a coefficient set. *)
Theorem m0_assertion_holds (lmax : Z) (a_r a_i : list C) :
  0 <= lmax ->
  length a_r = getsize lmax ->
  length a_i = getsize lmax ->
  m0_real lmax a_r = true ->
  m0_real lmax a_i = true ->
  let '(l, m) := getlm lmax in
  exists almr almi almp almn rows alm,
    pd_Series a_r (combine m l) = Ok almr
    /\ pd_Series a_i (combine m l) = Ok almi
    /\ pos_assembly almr almi = Ok almp
    /\ neg_assembly almr almi m (combine (map Z.opp m) l) = Ok almn
    /\ loc 0 almn = Ok rows
    /\ loc 0 almp = Ok rows
    /\ m0_rows_match almn almp = Ok true
    /\ assemble almr almi m (combine (map Z.opp m) l) = Ok alm.
Proof.
  intros Hl HlR HlI H0R H0I.
  destruct (half_set_as_map a_r lmax HlR) as [FR ER].
  destruct (half_set_as_map a_i lmax HlI) as [FI EI]. subst a_r a_i.
  pose proof (getlm_mpos_idx lmax) as Ep. pose proof (getlm_mneg_idx lmax) as En.
  pose proof (getlm_m_arr lmax) as Em.
  destruct (getlm lmax) as [l m]. simpl in Ep, En, Em. rewrite Ep, En, Em.
  destruct (assemble_tab FR FI lmax Hl H0R H0I) as [Hrows [Hmatch Hasm]].
  cbv zeta in Hrows, Hmatch, Hasm.
  set (P := map swap (getlm_pairs lmax)) in *.
  set (R := fun k => FR (swap k)) in *. set (I := fun k => FI (swap k)) in *.
  destruct (loc_tab_Ok (pos_value R I) P (0, 0) (in_mpos_00 lmax Hl) eq_refl)
    as [rows Hp].
  exists (tab R P), (tab I P), (tab (pos_value R I) P),
    (tab (fun k => neg_value R I (negfst k)) (map negfst P)), rows.
  eexists. repeat split.
  - apply pd_Series_mpos.
  - apply pd_Series_mpos.
  - apply pos_assembly_tab.
  - apply neg_assembly_tab.
  - now rewrite Hrows.
  - exact Hp.
  - exact Hmatch.
  - exact Hasm.
Qed.

Lemma m0_assertion_holds_witness :
  let a_r := [mkC 1%Qc 0%Qc; mkC (1 + 1)%Qc 0%Qc; mkC 1%Qc 1%Qc] in
  let a_i := [mkC 0%Qc 0%Qc; mkC 1%Qc 0%Qc; mkC (1 + 1)%Qc 1%Qc] in
  let '(l, m) := getlm 1 in
  exists almr almi almp almn rows alm,
    pd_Series a_r (combine m l) = Ok almr
    /\ pd_Series a_i (combine m l) = Ok almi
    /\ pos_assembly almr almi = Ok almp
    /\ neg_assembly almr almi m (combine (map Z.opp m) l) = Ok almn
    /\ loc 0 almn = Ok rows
    /\ loc 0 almp = Ok rows
    /\ m0_rows_match almn almp = Ok true
    /\ assemble almr almi m (combine (map Z.opp m) l) = Ok alm.
Proof.
  cbv zeta.
  apply (m0_assertion_holds 1
           [mkC 1%Qc 0%Qc; mkC (1 + 1)%Qc 0%Qc; mkC 1%Qc 1%Qc]
           [mkC 0%Qc 0%Qc; mkC 1%Qc 0%Qc; mkC (1 + 1)%Qc 1%Qc]).
  - lia.
  - reflexivity.
  - reflexivity.
  - vm_compute; reflexivity.
  - vm_compute; reflexivity.
Defined.

(** ** No check of the sign of the spectrum *)


Lemma pd_Series_mpos_cases (d : list C) (lmax : Z) :
  (pd_Series d (map swap (getlm_pairs lmax)) = Err ValueError)
  \/ (exists F, d = map F (getlm_pairs lmax)
                /\ pd_Series d (map swap (getlm_pairs lmax))
                   = Ok (tab (fun k => F (swap k)) (map swap (getlm_pairs lmax)))).
Proof.
  unfold pd_Series. destruct (Nat.eqb _ _) eqn:B.
  - right. apply Nat.eqb_eq in B. rewrite length_map in B.
    destruct (half_set_as_map d lmax B) as [F EF]. exists F.
    split; [exact EF |]. subst d. f_equal.
    rewrite combine_map_l. apply tab_relabel, swap_involutive.
  - now left.
Qed.

(** [syn_full_alm], once the index of healpy is written out. *)
Lemma syn_full_alm_unfold (rng : Type)
  (synalm : list Qc -> Z -> rng -> result (list C * rng))
  (Cls : list Qc) (lmax : option Z) (g : rng) :
  let L := match lmax with None => Z.of_nat (length Cls) - 1 | Some n => n end in
  let P := map swap (getlm_pairs L) in
  let half_Cls := map (fun c => (c * half)%Qc) Cls in
  0 <= L ->
  syn_full_alm rng synalm Cls lmax g
  = (r1 <- synalm half_Cls L g ;;
     almr <- pd_Series (fst r1) P ;;
     r2 <- synalm half_Cls L (snd r1) ;;
     almi <- pd_Series (fst r2) P ;;
     alm <- assemble almr almi (map fst P) (map negfst P) ;;
     Ok (alm, snd r2)).
Proof.
  cbv zeta. unfold syn_full_alm.
  set (L := match lmax with None => Z.of_nat (length Cls) - 1 | Some n => n end).
  intros HL. rewrite (Alm_getlm_nonneg L HL). cbn [bind].
  pose proof (getlm_mpos_idx L) as Ep. pose proof (getlm_mneg_idx L) as En.
  pose proof (getlm_m_arr L) as Em.
  destruct (getlm L) as [l m]. simpl in Ep, En, Em. rewrite Ep, En, Em.
  destruct (synalm _ L g) as [[a_r g1] | e]; [| reflexivity]. cbn [bind fst snd].
  destruct (pd_Series a_r _) as [almr | e]; [| reflexivity]. cbn [bind].
  destruct (synalm _ L g1) as [[a_i g2] | e]; reflexivity.
Qed.

(** A negative degree is refused before the generator is consulted. *)
Lemma syn_full_alm_negative (rng : Type)
  (synalm : list Qc -> Z -> rng -> result (list C * rng))
  (Cls : list Qc) (lmax : option Z) (g : rng) :
  match lmax with None => Z.of_nat (length Cls) - 1 | Some n => n end < 0 ->
  syn_full_alm rng synalm Cls lmax g = Err ValueError.
Proof.
  intros H. unfold syn_full_alm. now rewrite (Alm_getlm_negative _ H).
Qed.



(** ** Every label once *)

Lemma index_sort_index (s : Series key) : index (sort_index s) = sort_by lex_le (index s).
Proof. unfold index, sort_index. symmetry. now apply sort_by_map. Qed.

Lemma index_swaplevel (s : Series key) : index (swaplevel s) = map swap (index s).
Proof. unfold index, swaplevel. rewrite !map_map. reflexivity. Qed.

Lemma index_add_fill_distinct (a b : Series key) (fill : C) :
  index a <> index b ->
  index (add_fill a b fill) = sort_by lex_le (nodup key_eq_dec (index a ++ index b)).
Proof.
  intros H. unfold add_fill.
  destruct (list_eqb key_eqb (index a) (index b)) eqn:E.
  - exfalso. apply H. apply (list_eqb_eq key_eqb); [| exact E].
    intros x y. apply key_eqb_eq.
  - unfold index at 1. rewrite map_map. simpl. apply map_id.
Qed.

Lemma in_mneg_dropped (lmax m l : Z) :
  In (m, l) (mneg_dropped lmax) <-> m < 0 /\ - m <= l /\ l <= lmax.
Proof.
  unfold mneg_dropped. rewrite filter_In, in_map_negfst, in_map_swap.
  unfold negfst, swap; cbn [fst snd].
  rewrite in_getlm_pairs, negb_true_iff, Z.eqb_neq. lia.
Qed.

Lemma merged_index (lmax : Z) :
  sort_by lex_le
    (map swap (sort_by lex_le
                 (nodup key_eq_dec (map swap (getlm_pairs lmax) ++ mneg_dropped lmax))))
  = full_index lmax.
Proof.
  apply sort_by_unique.
  - apply lex_le_total.
  - apply lex_le_trans.
  - apply lex_le_antisym.
  - apply NoDup_Permutation.
    + apply NoDup_map_inj; [apply swap_injective |].
      eapply Permutation_NoDup; [apply Permutation_sym, sort_by_perm |].
      apply NoDup_nodup.
    + apply full_index_NoDup.
    + intros [l m]. rewrite in_map_swap, in_sort_by, nodup_In, in_app_iff.
      unfold swap at 1 3; cbn [fst snd].
      rewrite in_map_swap, in_mneg_dropped, in_full_index.
      unfold swap; cbn [fst snd]. rewrite in_getlm_pairs. lia.
  - apply full_index_sorted_le.
Qed.

Lemma assembled_index (A B : key -> C) (lmax : Z) :
  0 <= lmax ->
  let P := map swap (getlm_pairs lmax) in
  index (sort_index (swaplevel
           (add_fill (tab A P) (drop_level fst 0 (tab B (map negfst P))) c0)))
  = full_index lmax.
Proof.
  intros Hl P. rewrite index_sort_index, index_swaplevel, drop_level_tab.
  rewrite index_add_fill_distinct.
  - rewrite !index_tab. apply merged_index.
  - rewrite !index_tab. intros E.
    pose proof (in_mpos_00 lmax Hl) as H00. fold P in H00. rewrite E in H00.
    apply filter_In in H00 as [_ H00]. discriminate H00.
Qed.

Lemma loc_nil_tab (V : key -> C) : loc 0 (tab V []) = Err KeyError.
Proof. reflexivity. Qed.

(** Whatever [syn_full_alm] returns is indexed by the full index. *)
Lemma syn_full_alm_index (rng : Type)
  (synalm : list Qc -> Z -> rng -> result (list C * rng))
  (Cls : list Qc) (lmax : option Z) (g g' : rng) (alm : Series key) :
  syn_full_alm rng synalm Cls lmax g = Ok (alm, g') ->
  index alm
  = full_index (match lmax with None => Z.of_nat (length Cls) - 1 | Some n => n end).
Proof.
  set (L := match lmax with None => Z.of_nat (length Cls) - 1 | Some n => n end).
  destruct (Z_lt_le_dec L 0) as [Hneg | Hpos];
    [rewrite (syn_full_alm_negative rng synalm Cls lmax g Hneg); discriminate |].
  rewrite (syn_full_alm_unfold rng synalm Cls lmax g Hpos). fold L.
  destruct (synalm _ L g) as [[a_r g1] | e]; [| discriminate]. cbn [bind fst snd].
  destruct (pd_Series_mpos_cases a_r L) as [E1 | [FR [_ E1]]];
    rewrite E1; [discriminate |]. cbn [bind].
  destruct (synalm _ L g1) as [[a_i g2] | e]; [| discriminate]. cbn [bind fst snd].
  destruct (pd_Series_mpos_cases a_i L) as [E2 | [FI [_ E2]]];
    rewrite E2; [discriminate |]. cbn [bind].
  unfold assemble. rewrite pos_assembly_tab, neg_assembly_tab. cbn [bind].
  destruct (m0_rows_match _ _) as [[|] | e]; cbn [bind]; try discriminate.
  intros H. inversion H; subst. now apply assembled_index.
Qed.

Lemma count_occ_NoDup (l : list key) (k : key) :
  NoDup l -> count_occ key_eq_dec l k = if in_dec key_eq_dec k l then 1%nat else 0%nat.
Proof.
  intros Hn. destruct (in_dec key_eq_dec k l) as [Hin | Hout].
  - now apply NoDup_count_occ'.
  - now apply count_occ_not_In.
Qed.

Lemma count_occ_full_index (lmax : Z) (k : key) :
  count_occ key_eq_dec (full_index lmax) k
  = if in_full_range lmax k then 1%nat else 0%nat.
Proof.
  rewrite count_occ_NoDup by apply full_index_NoDup.
  destruct (in_dec key_eq_dec k (full_index lmax)) as [H | H];
    destruct (in_full_range lmax k) eqn:E; try reflexivity.
  - apply in_full_index_range in H. congruence.
  - apply in_full_index_range in E. contradiction.
Qed.

(** ** The values of the generated set *)

Lemma half_at_map (lmax : Z) (d : list C) :
  length d = getsize lmax -> d = map (half_at lmax d) (getlm_pairs lmax).
Proof. intros H. exact (list_as_map _ _ (getlm_pairs_NoDup lmax) H). Qed.

Lemma add_fill_distinct (a b : Series key) (fill : C) :
  index a <> index b ->
  add_fill a b fill
  = tab (fun k => cadd (lookup_or fill k a) (lookup_or fill k b))
        (sort_by lex_le (nodup key_eq_dec (index a ++ index b))).
Proof.
  intros H. unfold add_fill.
  destruct (list_eqb key_eqb (index a) (index b)) eqn:E; [| reflexivity].
  exfalso. apply H. apply (list_eqb_eq key_eqb); [| exact E].
  intros x y. apply key_eqb_eq.
Qed.

Lemma swaplevel_tab (W : key -> C) (U : list key) :
  swaplevel (tab W U) = tab (fun k => W (swap k)) (map swap U).
Proof.
  unfold swaplevel, tab. rewrite !map_map. apply map_ext. intros k.
  simpl. now rewrite swap_involutive.
Qed.

(** The merged Series of [assemble] is the analyser's combination of the
    two generated half sets. *)
Lemma assembled_values (FR FI : key -> C) (lmax : Z) :
  0 <= lmax ->
  let P := map swap (getlm_pairs lmax) in
  let R := fun k => FR (swap k) in
  let I := fun k => FI (swap k) in
  sort_index (swaplevel
    (add_fill (tab (pos_value R I) P)
              (drop_level fst 0 (tab (fun k => neg_value R I (negfst k)) (map negfst P)))
              c0))
  = tab (combination FR FI) (full_index lmax).
Proof.
  intros Hl P R I. rewrite drop_level_tab.
  rewrite add_fill_distinct.
  2:{ rewrite !index_tab. intros E.
      pose proof (in_mpos_00 lmax Hl) as H00. fold P in H00. rewrite E in H00.
      apply filter_In in H00 as [_ H00]. discriminate H00. }
  rewrite !index_tab, swaplevel_tab, sort_index_tab.
  match goal with
  | |- tab _ ?U = _ =>
      replace U with (full_index lmax) by (symmetry; apply merged_index)
  end.
  apply tab_ext_in. intros [l m] Hk. apply in_full_index in Hk.
  unfold swap at 1 2; cbn [fst snd].
  destruct (Z_le_gt_dec 0 m) as [Hm | Hm].
  - rewrite lookup_or_tab
      by (apply in_map_swap; unfold swap; cbn [fst snd]; apply in_getlm_pairs; lia).
    rewrite lookup_or_tab_out
      by (intros Hin; apply in_mneg_dropped in Hin; lia).
    unfold combination. rewrite !mirror_pos by (simpl; lia).
    unfold pos_value, R, I, swap; cbn [fst snd].
    destruct (FR (l, m)) as [a b], (FI (l, m)) as [c d].
    apply c_eq; simpl; ring.
  - rewrite lookup_or_tab_out
      by (intros Hin; apply in_map_swap in Hin; unfold swap in Hin;
          cbn [fst snd] in Hin; apply in_getlm_pairs in Hin; lia).
    rewrite lookup_or_tab by (apply in_mneg_dropped; lia).
    unfold combination, mirror, negm; cbn [fst snd].
    destruct (0 <=? m) eqn:E; [apply Z.leb_le in E; lia |].
    unfold neg_value, negfst, R, I, swap; cbn [fst snd].
    destruct (FR (l, - m)) as [a b], (FI (l, - m)) as [c d].
    generalize (ZtoC (pow_m1 (- m))). intros [sr si].
    apply c_eq; simpl; ring.
Qed.

Lemma syn_full_alm_tab (rng : Type)
  (synalm : list Qc -> Z -> rng -> result (list C * rng))
  (Cls : list Qc) (lmax : option Z) (g g1 g2 : rng) (FR FI : key -> C) :
  let L := match lmax with None => Z.of_nat (length Cls) - 1 | Some n => n end in
  let half_Cls := map (fun c => (c * half)%Qc) Cls in
  0 <= L ->
  synalm half_Cls L g = Ok (map FR (getlm_pairs L), g1) ->
  synalm half_Cls L g1 = Ok (map FI (getlm_pairs L), g2) ->
  m0_real L (map FR (getlm_pairs L)) = true ->
  m0_real L (map FI (getlm_pairs L)) = true ->
  syn_full_alm rng synalm Cls lmax g
  = Ok (tab (combination FR FI) (full_index L), g2).
Proof.
  intros L half_Cls HL H1 H2 H0R H0I.
  pose proof (syn_full_alm_unfold rng synalm Cls lmax g) as E. cbv zeta in E.
  fold L in E. fold half_Cls in E. rewrite (E HL), H1. cbn [bind fst snd].
  rewrite pd_Series_mpos. cbn [bind]. rewrite H2. cbn [bind fst snd].
  rewrite pd_Series_mpos. cbn [bind].
  destruct (assemble_tab FR FI L HL H0R H0I) as [_ [_ Hasm]]. cbv zeta in Hasm.
  rewrite Hasm. cbn [bind].
  pose proof (assembled_values FR FI L HL) as Hv. cbv zeta in Hv.
  now rewrite Hv.
Qed.

Lemma Qc_double_zero (x : Qc) : (x + x = 0)%Qc -> x = 0%Qc.
Proof.
  intros H. rewrite <- (half_double x).
  replace (half * x + half * x)%Qc with (half * (x + x))%Qc by ring.
  rewrite H. ring.
Qed.

(** At [m = 0] the two assemblies agree only if both generated entries are
    real. *)
Lemma m0_values_agree_inv (R I : key -> C) (k : key) :
  fst k = 0 -> neg_value R I k = pos_value R I k ->
  im (R k) = 0%Qc /\ im (I k) = 0%Qc.
Proof.
  intros Hk. unfold neg_value, pos_value. rewrite Hk, pow_m1_0, ZtoC_1.
  destruct (R k) as [a b], (I k) as [c d].
  unfold cmul, conj, csub, cadd, c1j; cbn [re im]. intros H.
  pose proof (f_equal re H) as H1. pose proof (f_equal im H) as H2.
  cbn [re im] in H1, H2. split; apply Qc_double_zero.
  - match type of H2 with
    | ?X = ?Y => assert (E : (b + b = Y - X)%Qc) by ring
    end.
    rewrite E, H2. ring.
  - match type of H1 with
    | ?X = ?Y => assert (E : (d + d = X - Y)%Qc) by ring
    end.
    rewrite E, H1. ring.
Qed.

(** The value of the condition of the [assert], row by row. *)
Lemma m0_rows_match_tab (R I : key -> C) (P : list key) (k0 : key) :
  In k0 P -> fst k0 = 0 ->
  m0_rows_match (tab (fun k => neg_value R I (negfst k)) (map negfst P))
                (tab (pos_value R I) P)
  = Ok (forallb (fun k => ceqb (neg_value R I k) (pos_value R I k))
                (filter (fun k => fst k =? 0) P)).
Proof.
  intros Hin H0. unfold m0_rows_match. rewrite !loc_tab, filter_m0_negfst.
  assert (Hne : In k0 (filter (fun k => fst k =? 0) P))
    by (apply filter_In; split; [exact Hin | now apply Z.eqb_eq]).
  destruct (filter (fun k => fst k =? 0) P) as [| k r] eqn:EF; [destruct Hne |].
  change (bind (Ok (map (fun k1 : key => (snd k1, neg_value R I (negfst k1)))
                        (map negfst (k :: r))))
               (fun n0 => bind (Ok (map (fun k1 : key => (snd k1, pos_value R I k1)) (k :: r)))
                               (fun p0 => all_equal n0 p0))
          = Ok (forallb (fun k1 => ceqb (neg_value R I k1) (pos_value R I k1)) (k :: r))).
  cbn [bind]. generalize (k :: r) as Q. clear. intros Q.
  unfold all_equal, index. rewrite !map_map.
  rewrite (map_ext (fun x : key => fst (snd (negfst x), neg_value R I (negfst (negfst x))))
                   (fun x : key => fst (snd x, pos_value R I x))) by reflexivity.
  rewrite list_eqb_refl by apply Z.eqb_refl. f_equal.
  induction Q as [| q Q IH]; [reflexivity |].
  cbn [map combine forallb fst snd]. rewrite negfst_involutive. f_equal. exact IH.
Qed.

Lemma assert_passes_only_if_real (FR FI : key -> C) (lmax : Z) :
  forallb (fun k => ceqb (neg_value (fun k => FR (swap k)) (fun k => FI (swap k)) k)
                         (pos_value (fun k => FR (swap k)) (fun k => FI (swap k)) k))
          (filter (fun k => fst k =? 0) (map swap (getlm_pairs lmax))) = true ->
  m0_real lmax (map FR (getlm_pairs lmax)) = true
  /\ m0_real lmax (map FI (getlm_pairs lmax)) = true.
Proof.
  intros H. rewrite forallb_forall in H.
  assert (Hk : forall k, In k (getlm_pairs lmax) -> snd k = 0 ->
                         im (FR k) = 0%Qc /\ im (FI k) = 0%Qc).
  { intros k Hin H0.
    assert (Hs : In (swap k) (filter (fun k => fst k =? 0) (map swap (getlm_pairs lmax)))).
    { apply filter_In. split.
      - apply in_map_swap. now rewrite swap_involutive.
      - apply Z.eqb_eq. exact H0. }
    apply H in Hs. apply ceqb_eq in Hs.
    apply m0_values_agree_inv in Hs; [| exact H0].
    now rewrite swap_involutive in Hs. }
  unfold m0_real. rewrite !combine_tab. split; apply forallb_forall;
    intros [k v] Hin; apply in_map_iff in Hin as [k' [E Hin]]; inversion E; subst;
    cbn [fst snd]; destruct (snd k =? 0) eqn:E0; try reflexivity; simpl;
    apply Z.eqb_eq in E0; apply Qc_eqb_eq; now apply (Hk k Hin E0).
Qed.

(** On the combination of two mirrored half sets with real [m = 0]
    entries, the synthesiser hands each half set, as it was, to the
    external synthesis. *)
Lemma synthesise_combination
  (alm2map : list C -> Z -> option Z -> result (list Qc))
  (FR FI : key -> C) (lmax : Z) (nside lm : option Z) :
  m0_real lmax (map FR (getlm_pairs lmax)) = true ->
  m0_real lmax (map FI (getlm_pairs lmax)) = true ->
  full_alm_2_cmplx_map alm2map (tab (combination FR FI) (full_index lmax)) nside lm
  = (re_map <- alm2map (map FR (getlm_pairs lmax))
                 (match nside with Some n => n | None => nside_default end) lm ;;
     im_map <- alm2map (map FI (getlm_pairs lmax))
                 (match nside with Some n => n | None => nside_default end) lm ;;
     np_complex re_map im_map).
Proof.
  intros H0R H0I.
  unfold full_alm_2_cmplx_map. cbv zeta. rewrite index_tab, split_alm_tab.
  cbn [bind]. rewrite !to_healpy_tab. cbn [bind].
  assert (Hsplit : forall k, In k (getlm_pairs lmax) ->
            re_part (combination FR FI) k = FR k
            /\ im_part (combination FR FI) k = FI k).
  { intros [l m] Hk. apply split_of_combination.
    - apply in_getlm_pairs in Hk. simpl; lia.
    - intros E. split;
        [now apply (m0_real_map FR lmax) | now apply (m0_real_map FI lmax)]. }
  assert (ER : map (re_part (combination FR FI)) (getlm_pairs lmax)
               = map FR (getlm_pairs lmax))
    by (apply map_ext_in; intros k Hk; apply Hsplit, Hk).
  assert (EI : map (im_part (combination FR FI)) (getlm_pairs lmax)
               = map FI (getlm_pairs lmax))
    by (apply map_ext_in; intros k Hk; apply Hsplit, Hk).
  match goal with
  | |- bind (alm2map ?a _ _) _ = _ => replace a with (map FR (getlm_pairs lmax))
  end.
  destruct (alm2map (map FR (getlm_pairs lmax)) _ lm) as [re_map | e]; [| reflexivity].
  cbn [bind].
  match goal with
  | |- bind (alm2map ?a _ _) _ = _ => replace a with (map FI (getlm_pairs lmax))
  end.
  reflexivity.
Qed.

Lemma half_at_of_map (lmax : Z) (F : key -> C) (k : key) :
  In k (getlm_pairs lmax) -> half_at lmax (map F (getlm_pairs lmax)) k = F k.
Proof. intros H. unfold half_at. rewrite combine_tab. now apply lookup_or_tab. Qed.

(** Whatever [syn_full_alm] returns comes from two draws of the right size
    that passed the assertion, and is their combination. *)
Lemma syn_full_alm_result (rng : Type)
  (synalm : list Qc -> Z -> rng -> result (list C * rng))
  (Cls : list Qc) (lmax : option Z) (g g' : rng) (alm : Series key) :
  let L := match lmax with None => Z.of_nat (length Cls) - 1 | Some n => n end in
  let half_Cls := map (fun c => (c * half)%Qc) Cls in
  syn_full_alm rng synalm Cls lmax g = Ok (alm, g') ->
  0 <= L
  /\ exists a_r a_i g1,
       synalm half_Cls L g = Ok (a_r, g1)
       /\ synalm half_Cls L g1 = Ok (a_i, g')
       /\ length a_r = getsize L /\ length a_i = getsize L
       /\ m0_real L a_r = true /\ m0_real L a_i = true
       /\ alm = tab (combination (half_at L a_r) (half_at L a_i)) (full_index L).
Proof.
  intros L half_Cls H.
  destruct (Z_lt_le_dec L 0) as [Hneg | HL];
    [rewrite (syn_full_alm_negative rng synalm Cls lmax g Hneg) in H; discriminate |].
  split; [exact HL |].
  pose proof H as H0.
  rewrite (syn_full_alm_unfold rng synalm Cls lmax g HL) in H.
  fold L in H. fold half_Cls in H.
  destruct (synalm half_Cls L g) as [[a_r g1] | e] eqn:E1; [| discriminate].
  cbn [bind fst snd] in H.
  destruct (pd_Series_mpos_cases a_r L) as [P1 | [FR [ER P1]]];
    rewrite P1 in H; [discriminate |]. cbn [bind] in H.
  destruct (synalm half_Cls L g1) as [[a_i g2] | e] eqn:E2; [| discriminate].
  cbn [bind fst snd] in H.
  destruct (pd_Series_mpos_cases a_i L) as [P2 | [FI [EI P2]]];
    rewrite P2 in H; [discriminate |]. cbn [bind] in H.
  unfold assemble in H. rewrite pos_assembly_tab, neg_assembly_tab in H.
  cbn [bind] in H.
  rewrite (m0_rows_match_tab _ _ _ (0, 0) (in_mpos_00 L HL) eq_refl) in H.
  cbn [bind] in H.
  destruct (forallb _ _) eqn:B; [| discriminate]. clear H.
  apply assert_passes_only_if_real in B as [BR BI].
  assert (BR' : m0_real L a_r = true) by (rewrite ER; exact BR).
  assert (BI' : m0_real L a_i = true) by (rewrite EI; exact BI).
  clear BR BI.
  assert (HlR : length a_r = getsize L) by (rewrite ER; apply length_map).
  assert (HlI : length a_i = getsize L) by (rewrite EI; apply length_map).
  pose proof (half_at_map L a_r HlR) as EA.
  pose proof (half_at_map L a_i HlI) as EB.
  assert (HT : syn_full_alm rng synalm Cls lmax g
               = Ok (tab (combination (half_at L a_r) (half_at L a_i)) (full_index L), g2)).
  { apply (syn_full_alm_tab rng synalm Cls lmax g g1 g2); fold L; fold half_Cls;
      try rewrite <- EA; try rewrite <- EB; assumption. }
  rewrite HT in H0. injection H0 as Ealm Eg. subst g2.
  exists a_r, a_i, g1. repeat split; try assumption; try reflexivity. now symmetry.
Qed.

(** C8. A coefficient set returned by [cmplx_map_2_full_alm] or by
    [syn_full_alm] holds every label [(l, m)] with [0 <= l <= lmax] and
    [|m| <= l] exactly once, and no other label.  The one row at each
    [(l, 0)] holds [r_(l,0) + 1j * i_(l,0)], the value of the positive-m
    half alone ([r], [i] the two arrays of the external transform, or of
    the generator): the [m = 0] row of the negative-m half was dropped
    before the merge, neither kept as a second row nor added to the first. *)
Theorem full_sets_hold_each_label_once :
  (forall (mask_bad : list fl -> list bool) (map2alm : masked -> Z -> result (list C))
          (X : list cpix) (lmax : Z) (alm : Series key),
      cmplx_map_2_full_alm mask_bad map2alm X lmax = Ok alm ->
      (forall k, count_occ key_eq_dec (index alm) k
                 = if in_full_range lmax k then 1%nat else 0%nat)
      /\ exists real_alm imag_alm,
           map2alm (fst (masked_parts mask_bad X)) lmax = Ok real_alm
           /\ map2alm (snd (masked_parts mask_bad X)) lmax = Ok imag_alm
           /\ forall l, 0 <= l <= lmax ->
                lookup (l, 0) alm
                = Some (cadd (half_at lmax real_alm (l, 0))
                             (cmul c1j (half_at lmax imag_alm (l, 0)))))
  /\ (forall (rng : Type) (synalm : list Qc -> Z -> rng -> result (list C * rng))
             (Cls : list Qc) (lmax : option Z) (g g' : rng) (alm : Series key),
        syn_full_alm rng synalm Cls lmax g = Ok (alm, g') ->
        let L := match lmax with
                 | None => Z.of_nat (length Cls) - 1
                 | Some n => n
                 end in
        let half_Cls := map (fun c => (c * half)%Qc) Cls in
        (forall k, count_occ key_eq_dec (index alm) k
                   = if in_full_range L k then 1%nat else 0%nat)
        /\ exists a_r a_i g1,
             synalm half_Cls L g = Ok (a_r, g1)
             /\ synalm half_Cls L g1 = Ok (a_i, g')
             /\ forall l, 0 <= l <= L ->
                  lookup (l, 0) alm
                  = Some (cadd (half_at L a_r (l, 0))
                               (cmul c1j (half_at L a_i (l, 0))))).
Proof.
  split.
  - intros mask_bad map2alm X lmax alm H.
    destruct (analyser_result _ _ _ _ _ H) as [FR [FI [HR [HI E]]]]. subst alm.
    split; [intros k; rewrite index_tab; apply count_occ_full_index |].
    exists (map FR (getlm_pairs lmax)), (map FI (getlm_pairs lmax)).
    split; [exact HR | split; [exact HI |]].
    intros l Hl. rewrite lookup_tab by (apply in_full_index; lia).
    rewrite !mirror_pos by (simpl; lia).
    now rewrite !half_at_of_map by (apply in_getlm_pairs; lia).
  - intros rng synalm Cls lmax g g' alm H L half_Cls.
    destruct (syn_full_alm_result rng synalm Cls lmax g g' alm H)
      as [HL [a_r [a_i [g1 [H1 [H2 [_ [_ [_ [_ E]]]]]]]]]].
    fold L in HL, H1, H2, E. fold half_Cls in H1, H2. subst alm.
    split; [intros k; rewrite index_tab; apply count_occ_full_index |].
    exists a_r, a_i, g1. split; [exact H1 | split; [exact H2 |]].
    intros l Hl. rewrite lookup_tab by (apply in_full_index; lia).
    unfold combination. now rewrite !mirror_pos by (simpl; lia).
Qed.

Lemma full_sets_hold_each_label_once_witness :
  (exists alm,
      cmplx_map_2_full_alm Sample.mask_bad Sample.map2alm
        [mkPix (Fin (1 + 1)%Qc) (Fin 1%Qc)] 1 = Ok alm
      /\ (forall k, count_occ key_eq_dec (index alm) k
                    = if in_full_range 1 k then 1%nat else 0%nat)
      /\ lookup (0, 0) alm = Some (mkC (1 + 1)%Qc 1%Qc))
  /\ (exists alm, syn_full_alm Z Sample.synalm [Z2Qc (-1); Z2Qc 4] None 0 = Ok (alm, 2)
                  /\ (forall k, count_occ key_eq_dec (index alm) k
                                = if in_full_range 1 k then 1%nat else 0%nat)
                  /\ lookup (1, 0) alm = Some (mkC (1 + 1)%Qc (1 + 1 + 1)%Qc)).
Proof.
  destruct full_sets_hold_each_label_once as [Han Hsyn]. split.
  - eexists. split; [vm_compute; reflexivity |].
    match goal with
    | |- (forall k, count_occ _ (index ?a) k = _) /\ _ =>
        destruct (Han Sample.mask_bad Sample.map2alm
                    [mkPix (Fin (1 + 1)%Qc) (Fin 1%Qc)] 1 a) as [Hc _];
          [vm_compute; reflexivity |]
    end.
    split; [exact Hc | vm_compute; reflexivity].
  - eexists. split; [vm_compute; reflexivity |].
    match goal with
    | |- (forall k, count_occ _ (index ?a) k = _) /\ _ =>
        destruct (Hsyn Z Sample.synalm [Z2Qc (-1); Z2Qc 4] None 0 2 a) as [Hc _];
          [vm_compute; reflexivity |]
    end.
    split; [exact Hc | vm_compute; reflexivity].
Defined.

(** ** Defaults of the keyword arguments *)

(** C9. With [lmax] not given, [syn_full_alm] runs as with
    [lmax = len(Cls) - 1], and whatever it then returns is indexed by the
    full index of that degree: the entries of [Cls] stand for the degrees
    [0 .. len(Cls) - 1]. *)
Theorem syn_full_alm_lmax_inferred (rng : Type)
  (synalm : list Qc -> Z -> rng -> result (list C * rng)) (Cls : list Qc) (g : rng) :
  syn_full_alm rng synalm Cls None g
  = syn_full_alm rng synalm Cls (Some (Z.of_nat (length Cls) - 1)) g
  /\ forall alm g', syn_full_alm rng synalm Cls None g = Ok (alm, g') ->
       index alm = full_index (Z.of_nat (length Cls) - 1).
Proof.
  split; [reflexivity |].
  intros alm g' H. exact (syn_full_alm_index rng synalm Cls None g g' alm H).
Qed.

Lemma syn_full_alm_lmax_inferred_witness :
  syn_full_alm Z Sample.synalm [Z2Qc 1; Z2Qc 4] None 0
  = syn_full_alm Z Sample.synalm [Z2Qc 1; Z2Qc 4] (Some 1) 0
  /\ exists alm, syn_full_alm Z Sample.synalm [Z2Qc 1; Z2Qc 4] None 0 = Ok (alm, 2)
                 /\ index alm = [(0, 0); (1, -1); (1, 0); (1, 1)].
Proof.
  destruct (syn_full_alm_lmax_inferred Z Sample.synalm [Z2Qc 1; Z2Qc 4] 0) as [H1 H2].
  split; [exact H1 |].
  eexists. split.
  - vm_compute. reflexivity.
  - apply (H2 _ 2). vm_compute. reflexivity.
Defined.

Lemma np_complex_pair (re_map im_map : list Qc) :
  length re_map = length im_map ->
  np_complex re_map im_map
  = Ok (map (fun e => mkC (fst e) (snd e)) (combine re_map im_map)).
Proof.
  intros H. unfold np_complex. rewrite H, Nat.eqb_refl. f_equal.
  apply map_ext. intros [x y]. unfold cadd, cmul, RtoC, c1j; cbn [re im fst snd].
  apply c_eq; cbn [re im]; ring.
Qed.

(** C10. With [nside] omitted, [full_alm_2_cmplx_map] and [syn_cmplx_map]
    synthesise at resolution 32.  Whatever two arrays the split of the
    coefficient set hands over, [full_alm_2_cmplx_map] returns the map
    whose real part is the external synthesis of the first at
    [nside = 32] and whose imaginary part is that of the second at
    [nside = 32]; and [syn_cmplx_map] returns that map for its two draws.
    Neither fails for want of a resolution, and the resolution is not
    read off the coefficient set. *)
Theorem nside_defaults_to_32
  (alm2map : list C -> Z -> option Z -> result (list Qc)) (rng : Type)
  (synalm : list Qc -> Z -> rng -> result (list C * rng)) :
  (forall (alm re_s im_s : Series key) (lmax : option Z)
          (re_alm im_alm : list C) (re_map im_map : list Qc),
      split_alm alm = Ok (re_s, im_s) ->
      to_healpy re_s (map snd (index alm)) = Ok re_alm ->
      to_healpy im_s (map snd (index alm)) = Ok im_alm ->
      alm2map re_alm 32 lmax = Ok re_map ->
      alm2map im_alm 32 lmax = Ok im_map ->
      length re_map = length im_map ->
      full_alm_2_cmplx_map alm2map alm None lmax
      = Ok (map (fun e => mkC (fst e) (snd e)) (combine re_map im_map)))
  /\ (forall (Cls : list Qc) (lmax : option Z) (g g1 g2 : rng) (a_r a_i : list C)
             (re_map im_map : list Qc),
        let L := match lmax with None => Z.of_nat (length Cls) - 1 | Some n => n end in
        let half_Cls := map (fun c => (c * half)%Qc) Cls in
        0 <= L ->
        synalm half_Cls L g = Ok (a_r, g1) ->
        synalm half_Cls L g1 = Ok (a_i, g2) ->
        length a_r = getsize L ->
        length a_i = getsize L ->
        m0_real L a_r = true ->
        m0_real L a_i = true ->
        alm2map a_r 32 lmax = Ok re_map ->
        alm2map a_i 32 lmax = Ok im_map ->
        length re_map = length im_map ->
        syn_cmplx_map alm2map rng synalm Cls None lmax g
        = Ok (map (fun e => mkC (fst e) (snd e)) (combine re_map im_map), g2)).
Proof.
  split.
  - intros alm re_s im_s lmax re_alm im_alm re_map im_map Hs Hre Him HR HI Hlen.
    unfold full_alm_2_cmplx_map. cbv zeta. rewrite Hs. cbn [bind].
    rewrite Hre. cbn [bind]. rewrite Him. cbn [bind].
    change nside_default with 32. rewrite HR. cbn [bind]. rewrite HI. cbn [bind].
    now apply np_complex_pair.
  - intros Cls lmax g g1 g2 a_r a_i re_map im_map L half_Cls HL H1 H2 HlR HlI H0R H0I
           HR HI Hlen.
    destruct (half_set_as_map a_r L HlR) as [FR ER].
    destruct (half_set_as_map a_i L HlI) as [FI EI]. subst a_r a_i.
    unfold syn_cmplx_map.
    rewrite (syn_full_alm_tab rng synalm Cls lmax g g1 g2 FR FI HL H1 H2 H0R H0I).
    cbn [bind]. fold L.
    rewrite (synthesise_combination alm2map FR FI L None lmax H0R H0I).
    cbv beta iota delta [nside_default].
    match goal with
    | |- bind (bind ?A _) _ = _ =>
        replace A with (@Ok (list Qc) re_map) by (symmetry; exact HR)
    end.
    cbn [bind].
    match goal with
    | |- bind (bind ?B _) _ = _ =>
        replace B with (@Ok (list Qc) im_map) by (symmetry; exact HI)
    end.
    cbn [bind].
    now rewrite (np_complex_pair re_map im_map Hlen).
Qed.

Lemma nside_defaults_to_32_witness :
  let alm : Series key := [((0, 0), mkC 1%Qc 1%Qc); ((1, -1), mkC 0%Qc 1%Qc);
                           ((1, 0), mkC 1%Qc 0%Qc); ((1, 1), mkC 1%Qc 1%Qc)] in
  let npix := Z.to_nat (12 * 32 * 32) in
  full_alm_2_cmplx_map Sample.alm2map_32 alm None (Some 1)
  = Ok (map (fun e => mkC (fst e) (snd e)) (combine (repeat 1%Qc npix) (repeat 1%Qc npix)))
  /\ syn_cmplx_map Sample.alm2map_32 Z Sample.synalm [Z2Qc 1; Z2Qc 4] None (Some 1) 0
     = Ok (map (fun e => mkC (fst e) (snd e))
               (combine (repeat half npix) (repeat (1 + half)%Qc npix)), 2).
Proof.
  cbv zeta.
  destruct (nside_defaults_to_32 Sample.alm2map_32 Z Sample.synalm) as [Hmap Hsyn].
  split.
  - eapply Hmap.
    + vm_compute. reflexivity.
    + vm_compute. reflexivity.
    + vm_compute. reflexivity.
    + vm_compute. reflexivity.
    + vm_compute. reflexivity.
    + vm_compute. reflexivity.
  - eapply (Hsyn [Z2Qc 1; Z2Qc 4] (Some 1) 0 1 2).
    + lia.
    + vm_compute. reflexivity.
    + vm_compute. reflexivity.
    + reflexivity.
    + reflexivity.
    + vm_compute. reflexivity.
    + vm_compute. reflexivity.
    + vm_compute. reflexivity.
    + vm_compute. reflexivity.
    + vm_compute. reflexivity.
Defined.

(** * Further properties of the transform core *)

(** ** The expansion of a half set *)

Lemma expand_half_at (lmax : Z) (d : list C) :
  length d = getsize lmax ->
  expand_half d lmax = Ok (tab (mirror (half_at lmax d)) (full_index lmax)).
Proof.
  intros H. pose proof (expand_half_tab (half_at lmax d) lmax) as E.
  now rewrite <- (half_at_map lmax d H) in E.
Qed.

(** [expand_half] (lines 251-257) on an array with one entry per label of
    healpy's index returns a Series over the full index, sorted by degree
    and order, that keeps every entry at its own label [(l, m)] and holds
    [conj (d_(l,m)) * (-1)^m] at the mirrored label [(l, -m)]; on an array of
    any other length it raises [ValueError]. *)
Theorem expand_half_values (lmax : Z) (d : list C) :
  (length d = getsize lmax ->
   exists s,
     expand_half d lmax = Ok s
     /\ index s = full_index lmax
     /\ (forall l m, 0 <= m <= l -> l <= lmax ->
           lookup (l, m) s = Some (half_at lmax d (l, m)))
     /\ (forall l m, 0 < m <= l -> l <= lmax ->
           lookup (l, - m) s
           = Some (cmul (conj (half_at lmax d (l, m))) (ZtoC (pow_m1 m)))))
  /\ (length d <> getsize lmax -> expand_half d lmax = Err ValueError).
Proof.
  split.
  - intros H. eexists. split; [apply (expand_half_at lmax d H) |].
    split; [apply index_tab |]. split.
    + intros l m Hm Hl. rewrite lookup_tab by (apply in_full_index; lia).
      now rewrite mirror_pos by (simpl; lia).
    + intros l m Hm Hl. rewrite lookup_tab by (apply in_full_index; lia).
      change (l, - m) with (negm (l, m)). now rewrite mirror_neg by (simpl; lia).
  - apply expand_half_length.
Qed.

Lemma expand_half_values_witness :
  let d := [mkC 1%Qc 0%Qc; mkC (1 + 1)%Qc 0%Qc; mkC 1%Qc 1%Qc] in
  (exists s,
     expand_half d 1 = Ok s
     /\ index s = full_index 1
     /\ (forall l m, 0 <= m <= l -> l <= 1 ->
           lookup (l, m) s = Some (half_at 1 d (l, m)))
     /\ (forall l m, 0 < m <= l -> l <= 1 ->
           lookup (l, - m) s
           = Some (cmul (conj (half_at 1 d (l, m))) (ZtoC (pow_m1 m)))))
  /\ expand_half [c0; c0] 1 = Err ValueError.
Proof.
  cbv zeta. split.
  - apply (proj1 (expand_half_values 1
                    [mkC 1%Qc 0%Qc; mkC (1 + 1)%Qc 0%Qc; mkC 1%Qc 1%Qc])).
    reflexivity.
  - apply (proj2 (expand_half_values 1 [c0; c0])). vm_compute. discriminate.
Defined.

(** Lines 288-293 undo lines 251-257: selecting [m >= 0] from an expanded
    half set and sorting by order gives the healpy array back. *)
Theorem to_healpy_expand_half (lmax : Z) (d : list C) (s : Series key) :
  expand_half d lmax = Ok s ->
  to_healpy s (map snd (index s)) = Ok d.
Proof.
  intros H. destruct (expand_half_cases d lmax) as [[_ E] | [F [Hd E]]];
    rewrite E in H; [discriminate |].
  inversion H; subst s. rewrite index_tab, to_healpy_tab. f_equal. subst d.
  apply map_ext_in. intros [l m] Hk. apply in_getlm_pairs in Hk.
  apply mirror_pos. simpl; lia.
Qed.

Lemma to_healpy_expand_half_witness :
  let d := [mkC 1%Qc 0%Qc; mkC (1 + 1)%Qc 0%Qc; mkC 1%Qc 1%Qc] in
  let s := [((0, 0), mkC 1%Qc 0%Qc); ((1, -1), mkC (Qcopp 1) 1%Qc);
            ((1, 0), mkC (1 + 1)%Qc 0%Qc); ((1, 1), mkC 1%Qc 1%Qc)] in
  to_healpy s (map snd (index s)) = Ok d.
Proof.
  cbv zeta.
  apply (to_healpy_expand_half 1 [mkC 1%Qc 0%Qc; mkC (1 + 1)%Qc 0%Qc; mkC 1%Qc 1%Qc]).
  vm_compute. reflexivity.
Defined.

(** ** The analyser: values, order, failures *)

Lemma analyser_at (mask_bad : list fl -> list bool)
  (map2alm : masked -> Z -> result (list C)) (X : list cpix) (lmax : Z)
  (real_alm imag_alm : list C) :
  0 <= lmax ->
  map2alm (fst (masked_parts mask_bad X)) lmax = Ok real_alm ->
  map2alm (snd (masked_parts mask_bad X)) lmax = Ok imag_alm ->
  length real_alm = getsize lmax ->
  length imag_alm = getsize lmax ->
  cmplx_map_2_full_alm mask_bad map2alm X lmax
  = Ok (tab (combination (half_at lmax real_alm) (half_at lmax imag_alm))
            (full_index lmax)).
Proof.
  intros Hl0 HR HI HlR HlI.
  apply (analyser_tab _ _ _ _ _ _ Hl0).
  - now rewrite <- (half_at_map lmax real_alm HlR).
  - now rewrite <- (half_at_map lmax imag_alm HlI).
Qed.

(** For [lmax >= 0], when both real transforms return one coefficient per
    label, the analyser returns the set with [a_(l,m) = r_(l,m) + 1j * i_(l,m)] at
    [m >= 0] and [a_(l,-m) = conj (r_(l,m)) (-1)^m + 1j * conj (i_(l,m)) (-1)^m]
    at [m > 0], where [r] and [i] are the coefficients of the real and of the
    imaginary part of the map. *)
Theorem analyser_values (mask_bad : list fl -> list bool)
  (map2alm : masked -> Z -> result (list C)) (X : list cpix) (lmax : Z)
  (real_alm imag_alm : list C) :
  0 <= lmax ->
  map2alm (fst (masked_parts mask_bad X)) lmax = Ok real_alm ->
  map2alm (snd (masked_parts mask_bad X)) lmax = Ok imag_alm ->
  length real_alm = getsize lmax ->
  length imag_alm = getsize lmax ->
  exists alm,
    cmplx_map_2_full_alm mask_bad map2alm X lmax = Ok alm
    /\ (forall l m, 0 <= m <= l -> l <= lmax ->
          lookup (l, m) alm
          = Some (cadd (half_at lmax real_alm (l, m))
                       (cmul c1j (half_at lmax imag_alm (l, m)))))
    /\ (forall l m, 0 < m <= l -> l <= lmax ->
          lookup (l, - m) alm
          = Some (cadd (cmul (conj (half_at lmax real_alm (l, m))) (ZtoC (pow_m1 m)))
                       (cmul c1j (cmul (conj (half_at lmax imag_alm (l, m)))
                                       (ZtoC (pow_m1 m)))))).
Proof.
  intros Hl0 HR HI HlR HlI. eexists.
  split; [apply (analyser_at mask_bad map2alm X lmax real_alm imag_alm); assumption |].
  split.
  - intros l m Hm Hl. rewrite lookup_tab by (apply in_full_index; lia).
    unfold combination. now rewrite !mirror_pos by (simpl; lia).
  - intros l m Hm Hl. rewrite lookup_tab by (apply in_full_index; lia).
    unfold combination. change (l, - m) with (negm (l, m)).
    now rewrite !mirror_neg by (simpl; lia).
Qed.

Lemma analyser_values_witness :
  let X := [mkPix (Fin 1%Qc) (Fin (1 + 1)%Qc); mkPix NaN (Fin 0%Qc)] in
  exists alm,
    cmplx_map_2_full_alm Sample.mask_bad Sample.map2alm X 1 = Ok alm
    /\ (forall l m, 0 <= m <= l -> l <= 1 ->
          lookup (l, m) alm
          = Some (cadd (half_at 1 [RtoC 1%Qc; c0; c0] (l, m))
                       (cmul c1j (half_at 1 [RtoC (1 + 1)%Qc; c0; c0] (l, m)))))
    /\ (forall l m, 0 < m <= l -> l <= 1 ->
          lookup (l, - m) alm
          = Some (cadd (cmul (conj (half_at 1 [RtoC 1%Qc; c0; c0] (l, m)))
                             (ZtoC (pow_m1 m)))
                       (cmul c1j (cmul (conj (half_at 1 [RtoC (1 + 1)%Qc; c0; c0] (l, m)))
                                       (ZtoC (pow_m1 m)))))).
Proof.
  cbv zeta.
  apply (analyser_values Sample.mask_bad Sample.map2alm
           [mkPix (Fin 1%Qc) (Fin (1 + 1)%Qc); mkPix NaN (Fin 0%Qc)] 1
           [RtoC 1%Qc; c0; c0] [RtoC (1 + 1)%Qc; c0; c0]); try reflexivity; lia.
Defined.

(** When both real transforms return but one of the two arrays does not
    have one entry per label of [hp.Alm.getlm(lmax)], the analyser raises
    [ValueError] (from the Series constructor; with a negative [lmax], from
    the index call before it). *)
Theorem analyser_wrong_size (mask_bad : list fl -> list bool)
  (map2alm : masked -> Z -> result (list C)) (X : list cpix) (lmax : Z)
  (real_alm imag_alm : list C) :
  map2alm (fst (masked_parts mask_bad X)) lmax = Ok real_alm ->
  map2alm (snd (masked_parts mask_bad X)) lmax = Ok imag_alm ->
  length real_alm <> getsize lmax \/ length imag_alm <> getsize lmax ->
  cmplx_map_2_full_alm mask_bad map2alm X lmax = Err ValueError.
Proof.
  intros HR HI Hlen. unfold cmplx_map_2_full_alm.
  destruct (Z_lt_le_dec lmax 0) as [Hneg | Hl0];
    [now rewrite (Alm_getlm_negative lmax Hneg) |].
  rewrite (Alm_getlm_nonneg lmax Hl0). cbn [bind].
  destruct (masked_parts mask_bad X) as [rm im]. simpl in HR, HI.
  rewrite HR, HI. cbn [bind].
  destruct (expand_half_cases real_alm lmax) as [[_ E1] | [FR [Hra E1]]];
    rewrite E1; [reflexivity |]. cbn [bind].
  destruct (expand_half_cases imag_alm lmax) as [[_ E2] | [FI [Hia E2]]];
    rewrite E2; [reflexivity |].
  exfalso. subst real_alm imag_alm. unfold getsize in Hlen.
  rewrite !length_map in Hlen. destruct Hlen as [H | H]; now apply H.
Qed.

Lemma analyser_wrong_size_witness :
  cmplx_map_2_full_alm Sample.mask_bad (fun _ _ => Ok [c0; c0])
    [mkPix (Fin 1%Qc) (Fin 0%Qc)] 1 = Err ValueError.
Proof.
  apply (analyser_wrong_size Sample.mask_bad (fun _ _ => Ok [c0; c0])
           [mkPix (Fin 1%Qc) (Fin 0%Qc)] 1 [c0; c0] [c0; c0]).
  - reflexivity.
  - reflexivity.
  - left. vm_compute. discriminate.
Defined.

(** Both producers return their rows sorted by degree and then by order:
    the index is the full index, strictly increasing. *)
Theorem full_sets_are_sorted :
  (forall (mask_bad : list fl -> list bool) (map2alm : masked -> Z -> result (list C))
          (X : list cpix) (lmax : Z) (alm : Series key),
      cmplx_map_2_full_alm mask_bad map2alm X lmax = Ok alm ->
      index alm = full_index lmax /\ StronglySorted lex_lt (index alm))
  /\ (forall (rng : Type) (synalm : list Qc -> Z -> rng -> result (list C * rng))
             (Cls : list Qc) (lmax : option Z) (g g' : rng) (alm : Series key),
        syn_full_alm rng synalm Cls lmax g = Ok (alm, g') ->
        index alm
        = full_index (match lmax with
                      | None => Z.of_nat (length Cls) - 1
                      | Some n => n
                      end)
        /\ StronglySorted lex_lt (index alm)).
Proof.
  split.
  - intros mask_bad map2alm X lmax alm H.
    destruct (analyser_result _ _ _ _ _ H) as [FR [FI [_ [_ E]]]]. subst alm.
    rewrite index_tab. split; [reflexivity | apply full_index_sorted].
  - intros rng synalm Cls lmax g g' alm H.
    rewrite (syn_full_alm_index _ _ _ _ _ _ _ H).
    split; [reflexivity | apply full_index_sorted].
Qed.

Lemma full_sets_are_sorted_witness :
  (exists alm, cmplx_map_2_full_alm Sample.mask_bad Sample.map2alm
                 [mkPix (Fin 1%Qc) (Fin 0%Qc)] 1 = Ok alm
               /\ index alm = [(0, 0); (1, -1); (1, 0); (1, 1)])
  /\ (exists alm, syn_full_alm Z Sample.synalm [Z2Qc 1; Z2Qc 4] None 0 = Ok (alm, 2)
                  /\ index alm = [(0, 0); (1, -1); (1, 0); (1, 1)]).
Proof.
  destruct full_sets_are_sorted as [Han Hsyn]. split.
  - eexists. split; [vm_compute; reflexivity |].
    apply (Han Sample.mask_bad Sample.map2alm [mkPix (Fin 1%Qc) (Fin 0%Qc)] 1).
    vm_compute. reflexivity.
  - eexists. split; [vm_compute; reflexivity |].
    apply (Hsyn Z Sample.synalm [Z2Qc 1; Z2Qc 4] None 0 2).
    vm_compute. reflexivity.
Defined.

(** ** The random coefficient sets: values *)

(** [syn_full_alm] builds from the two generated arrays exactly the set
    the analyser builds from two transformed arrays: each array expanded to
    negative [m] by the conjugate relation, then [real + 1j * imag].  In
    particular [a_(l,m) = r_(l,m) + 1j * i_(l,m)] at every [m >= 0]. *)
Theorem syn_full_alm_is_combination (rng : Type)
  (synalm : list Qc -> Z -> rng -> result (list C * rng))
  (Cls : list Qc) (lmax : option Z) (g g1 g2 : rng) (a_r a_i : list C) :
  let L := match lmax with None => Z.of_nat (length Cls) - 1 | Some n => n end in
  let half_Cls := map (fun c => (c * half)%Qc) Cls in
  0 <= L ->
  synalm half_Cls L g = Ok (a_r, g1) ->
  synalm half_Cls L g1 = Ok (a_i, g2) ->
  length a_r = getsize L ->
  length a_i = getsize L ->
  m0_real L a_r = true ->
  m0_real L a_i = true ->
  exists alm er ei,
    syn_full_alm rng synalm Cls lmax g = Ok (alm, g2)
    /\ expand_half a_r L = Ok er
    /\ expand_half a_i L = Ok ei
    /\ series_add er (smap (cmul c1j) ei) = Ok alm
    /\ (forall l m, 0 <= m <= l -> l <= L ->
          lookup (l, m) alm
          = Some (cadd (half_at L a_r (l, m)) (cmul c1j (half_at L a_i (l, m))))).
Proof.
  intros L half_Cls HL H1 H2 HlR HlI H0R H0I.
  pose proof (half_at_map L a_r HlR) as ER. pose proof (half_at_map L a_i HlI) as EI.
  exists (tab (combination (half_at L a_r) (half_at L a_i)) (full_index L)),
    (tab (mirror (half_at L a_r)) (full_index L)),
    (tab (mirror (half_at L a_i)) (full_index L)).
  split; [| split; [| split; [| split]]].
  - apply (syn_full_alm_tab rng synalm Cls lmax g g1 g2); fold L; fold half_Cls;
      try rewrite <- ER; try rewrite <- EI; assumption.
  - now apply expand_half_at.
  - now apply expand_half_at.
  - rewrite smap_tab. unfold series_add. apply series_binop_tab.
  - intros l m Hm Hl. rewrite lookup_tab by (apply in_full_index; lia).
    unfold combination. now rewrite !mirror_pos by (simpl; lia).
Qed.

Lemma syn_full_alm_is_combination_witness :
  let a_r := [mkC (1 / (1 + 1))%Qc 0%Qc; mkC (1 + 1)%Qc 0%Qc; mkC (1 + 1)%Qc (1 + 1)%Qc] in
  let a_i := [mkC (1 + 1 / (1 + 1))%Qc 0%Qc; mkC (1 + 1 + 1)%Qc 0%Qc;
              mkC (1 + 1 + 1)%Qc (1 + 1)%Qc] in
  exists alm er ei,
    syn_full_alm Z Sample.synalm [Z2Qc 1; Z2Qc 4] None 0 = Ok (alm, 2)
    /\ expand_half a_r 1 = Ok er
    /\ expand_half a_i 1 = Ok ei
    /\ series_add er (smap (cmul c1j) ei) = Ok alm
    /\ (forall l m, 0 <= m <= l -> l <= 1 ->
          lookup (l, m) alm
          = Some (cadd (half_at 1 a_r (l, m)) (cmul c1j (half_at 1 a_i (l, m))))).
Proof.
  cbv zeta.
  apply (syn_full_alm_is_combination Z Sample.synalm [Z2Qc 1; Z2Qc 4] None 0 1 2).
  - simpl. lia.
  - vm_compute. reflexivity.
  - vm_compute. reflexivity.
  - reflexivity.
  - reflexivity.
  - vm_compute. reflexivity.
  - vm_compute. reflexivity.
Defined.

(** ** Synthesis of a combination *)

(** [syn_cmplx_map] draws two half sets and returns
    [re_map + 1j * im_map], where [re_map] and [im_map] are the external
    syntheses of the first and of the second draw: the real and imaginary
    parts of the random map are two independent real random maps. *)
Theorem syn_cmplx_map_is_two_real_maps
  (alm2map : list C -> Z -> option Z -> result (list Qc)) (rng : Type)
  (synalm : list Qc -> Z -> rng -> result (list C * rng))
  (Cls : list Qc) (nside lmax : option Z) (g g1 g2 : rng) (a_r a_i : list C) :
  let L := match lmax with None => Z.of_nat (length Cls) - 1 | Some n => n end in
  let half_Cls := map (fun c => (c * half)%Qc) Cls in
  let n := match nside with Some n => n | None => 32 end in
  0 <= L ->
  synalm half_Cls L g = Ok (a_r, g1) ->
  synalm half_Cls L g1 = Ok (a_i, g2) ->
  length a_r = getsize L ->
  length a_i = getsize L ->
  m0_real L a_r = true ->
  m0_real L a_i = true ->
  syn_cmplx_map alm2map rng synalm Cls nside lmax g
  = (re_map <- alm2map a_r n lmax ;;
     im_map <- alm2map a_i n lmax ;;
     cmap <- np_complex re_map im_map ;;
     Ok (cmap, g2)).
Proof.
  intros L half_Cls n HL H1 H2 HlR HlI H0R H0I.
  destruct (half_set_as_map a_r L HlR) as [FR ER].
  destruct (half_set_as_map a_i L HlI) as [FI EI]. subst a_r a_i.
  unfold syn_cmplx_map.
  rewrite (syn_full_alm_tab rng synalm Cls lmax g g1 g2 FR FI HL H1 H2 H0R H0I).
  cbn [bind]. fold L.
  rewrite (synthesise_combination alm2map FR FI L nside lmax H0R H0I).
  fold n. change nside_default with 32. fold n.
  pose (A := alm2map (map FR (getlm_pairs L)) n lmax).
  pose (B := alm2map (map FI (getlm_pairs L)) n lmax).
  change (bind (bind A (fun re_map => bind B (fun im_map => np_complex re_map im_map)))
               (fun cmap => Ok (cmap, g2))
          = bind A (fun re_map => bind B (fun im_map =>
              bind (np_complex re_map im_map) (fun cmap => Ok (cmap, g2))))).
  clearbody A B. destruct A as [re_map | e]; [| reflexivity].
  destruct B as [im_map | e]; reflexivity.
Qed.

Lemma syn_cmplx_map_is_two_real_maps_witness :
  let a_r := [mkC (1 / (1 + 1))%Qc 0%Qc; mkC (1 + 1)%Qc 0%Qc; mkC (1 + 1)%Qc (1 + 1)%Qc] in
  let a_i := [mkC (1 + 1 / (1 + 1))%Qc 0%Qc; mkC (1 + 1 + 1)%Qc 0%Qc;
              mkC (1 + 1 + 1)%Qc (1 + 1)%Qc] in
  syn_cmplx_map Sample.alm2map Z Sample.synalm [Z2Qc 1; Z2Qc 4] (Some 1) None 0
  = (re_map <- Sample.alm2map a_r 1 None ;;
     im_map <- Sample.alm2map a_i 1 None ;;
     cmap <- np_complex re_map im_map ;;
     Ok (cmap, 2)).
Proof.
  cbv zeta.
  apply (syn_cmplx_map_is_two_real_maps Sample.alm2map Z Sample.synalm
           [Z2Qc 1; Z2Qc 4] (Some 1) None 0 1 2).
  - simpl. lia.
  - vm_compute. reflexivity.
  - vm_compute. reflexivity.
  - reflexivity.
  - reflexivity.
  - vm_compute. reflexivity.
  - vm_compute. reflexivity.
Defined.

(** ** When the assertion fails *)



(** ** The empty spectrum *)


(** ** Synthesis of a set with the real-map symmetry *)

Lemma combination_zero (F : key -> C) (k : key) :
  combination F (fun _ => c0) k = mirror F k.
Proof.
  unfold combination. destruct (mirror F k) as [a b].
  unfold mirror. destruct (0 <=? snd k).
  - apply c_eq; simpl; ring.
  - generalize (ZtoC (pow_m1 (- snd k))). intros [sr si]. apply c_eq; simpl; ring.
Qed.

Lemma m0_real_zero (lmax : Z) :
  m0_real lmax (map (fun _ : key => c0) (getlm_pairs lmax)) = true.
Proof.
  unfold m0_real. rewrite combine_tab. apply forallb_forall.
  intros [k v] Hin. apply in_map_iff in Hin as [k' [E _]]. inversion E; subst.
  cbn [fst snd]. apply orb_true_iff. right. reflexivity.
Qed.

(** A coefficient set with the symmetry of a real map (the expansion of a
    half set [d] with real [m = 0] entries) is synthesised as a real map:
    the external synthesis gets [d] itself for the real component and the
    zero array for the imaginary one. *)
Theorem synthesis_of_symmetric_set
  (alm2map : list C -> Z -> option Z -> result (list Qc))
  (lmax : Z) (d : list C) (s : Series key) (nside lm : option Z) :
  expand_half d lmax = Ok s ->
  m0_real lmax d = true ->
  full_alm_2_cmplx_map alm2map s nside lm
  = (re_map <- alm2map d (match nside with Some n => n | None => 32 end) lm ;;
     im_map <- alm2map (repeat c0 (getsize lmax))
                 (match nside with Some n => n | None => 32 end) lm ;;
     np_complex re_map im_map).
Proof.
  intros H H0. destruct (expand_half_cases d lmax) as [[_ E] | [F [Hd E]]];
    rewrite E in H; [discriminate |].
  inversion H; subst s. subst d.
  rewrite (tab_ext_in (mirror F) (combination F (fun _ => c0)) (full_index lmax))
    by (intros k _; symmetry; apply combination_zero).
  rewrite (synthesise_combination alm2map F (fun _ => c0) lmax nside lm H0
             (m0_real_zero lmax)).
  unfold getsize. rewrite <- map_const_repeat. reflexivity.
Qed.

Lemma synthesis_of_symmetric_set_witness :
  let d := [mkC 1%Qc 0%Qc; mkC (1 + 1)%Qc 0%Qc; mkC 1%Qc 1%Qc] in
  let s := [((0, 0), mkC 1%Qc 0%Qc); ((1, -1), mkC (Qcopp 1) 1%Qc);
            ((1, 0), mkC (1 + 1)%Qc 0%Qc); ((1, 1), mkC 1%Qc 1%Qc)] in
  full_alm_2_cmplx_map Sample.alm2map s (Some 1) (Some 1)
  = (re_map <- Sample.alm2map d 1 (Some 1) ;;
     im_map <- Sample.alm2map (repeat c0 (getsize 1)) 1 (Some 1) ;;
     np_complex re_map im_map).
Proof.
  cbv zeta.
  apply (synthesis_of_symmetric_set Sample.alm2map 1
           [mkC 1%Qc 0%Qc; mkC (1 + 1)%Qc 0%Qc; mkC 1%Qc 1%Qc]).
  - vm_compute. reflexivity.
  - vm_compute. reflexivity.
Defined.

(** ** The power spectrum: order of the rows, sign, degrees *)

Lemma full_alm_2_Cl_spec (alm : Series key) : full_alm_2_Cl alm = Ok (Cl_spec alm).
Proof.
  unfold full_alm_2_Cl, series_mul. rewrite series_binop_smap. simpl.
  f_equal. unfold Cl_spec, sum_level, degrees.
  rewrite degree_smap, !map_map. apply map_ext; intros l; simpl.
  now rewrite re_csum_degree.
Qed.

Lemma Zleb_total (x y : Z) : (x <=? y) = true \/ (y <=? x) = true.
Proof. rewrite !Z.leb_le. lia. Qed.

Lemma Zleb_trans (x y z : Z) : (x <=? y) = true -> (y <=? z) = true -> (x <=? z) = true.
Proof. rewrite !Z.leb_le. lia. Qed.

Lemma Zleb_antisym (x y : Z) : (x <=? y) = true -> (y <=? x) = true -> x = y.
Proof. rewrite !Z.leb_le. lia. Qed.

Lemma sum_normsq_perm (l : Z) (a b : Series key) :
  Permutation a b -> sum_normsq l a = sum_normsq l b.
Proof.
  induction 1 as [| x a b HP IH | x y a | a b c H1 IH1 H2 IH2]; simpl.
  - reflexivity.
  - now rewrite IH.
  - destruct (fst (fst y) =? l), (fst (fst x) =? l); try reflexivity. ring.
  - now rewrite IH1.
Qed.

Lemma degrees_perm (a b : Series key) :
  Permutation a b -> Permutation (degrees a) (degrees b).
Proof.
  intros HP. unfold degrees. apply NoDup_Permutation; try apply NoDup_uniq.
  intros l. rewrite !in_uniq. split; apply Permutation_in.
  - now apply Permutation_map.
  - now apply Permutation_map, Permutation_sym.
Qed.

(** The spectrum does not depend on the order of the rows of the set,
    up to the order of its own rows: two sets that are permutations of each
    other give the same value at each degree.  Each spectrum has one row per
    degree of its set, in the order in which the degrees first appear
    there. *)
Theorem full_alm_2_Cl_row_order (alm alm' : Series key) :
  Permutation alm alm' ->
  exists Cl Cl',
    full_alm_2_Cl alm = Ok Cl
    /\ full_alm_2_Cl alm' = Ok Cl'
    /\ Permutation Cl Cl'
    /\ NoDup (map fst Cl)
    /\ NoDup (map fst Cl')
    /\ map fst Cl = degrees alm
    /\ map fst Cl' = degrees alm'.
Proof.
  intros HP. exists (Cl_spec alm), (Cl_spec alm').
  split; [apply full_alm_2_Cl_spec |]. split; [apply full_alm_2_Cl_spec |].
  assert (Hfst : forall a, map fst (Cl_spec a) = degrees a).
  { intros a. unfold Cl_spec. rewrite map_map; simpl. apply map_id. }
  split; [| split; [| split; [| split]]].
  - unfold Cl_spec.
    rewrite (map_ext (fun l => (l, (sum_normsq l alm' / Z2Qc (2 * l + 1))%Qc))
                     (fun l => (l, (sum_normsq l alm / Z2Qc (2 * l + 1))%Qc)))
      by (intros l; now rewrite (sum_normsq_perm l alm alm' HP)).
    apply Permutation_map, degrees_perm, HP.
  - rewrite Hfst. apply NoDup_uniq.
  - rewrite Hfst. apply NoDup_uniq.
  - apply Hfst.
  - apply Hfst.
Qed.

Lemma full_alm_2_Cl_row_order_witness :
  let alm : Series key :=
    [((1, 1), mkC 1%Qc 1%Qc); ((0, 0), mkC 1%Qc 0%Qc); ((1, -1), c0)] in
  let alm' : Series key :=
    [((0, 0), mkC 1%Qc 0%Qc); ((1, -1), c0); ((1, 1), mkC 1%Qc 1%Qc)] in
  exists Cl Cl',
    full_alm_2_Cl alm = Ok Cl
    /\ full_alm_2_Cl alm' = Ok Cl'
    /\ Permutation Cl Cl'
    /\ NoDup (map fst Cl)
    /\ NoDup (map fst Cl')
    /\ map fst Cl = [1; 0]
    /\ map fst Cl' = [0; 1].
Proof.
  cbv zeta.
  apply (full_alm_2_Cl_row_order
           [((1, 1), mkC 1%Qc 1%Qc); ((0, 0), mkC 1%Qc 0%Qc); ((1, -1), c0)]
           [((0, 0), mkC 1%Qc 0%Qc); ((1, -1), c0); ((1, 1), mkC 1%Qc 1%Qc)]).
  apply (Permutation_cons_app [_; _] []). apply Permutation_refl.
Defined.

Lemma Qc_sq_nonneg (x : Qc) : (0 <= x * x)%Qc.
Proof.
  destruct (Qclt_le_dec x 0) as [Hneg | Hpos].
  - assert (H : (0 <= - x)%Qc).
    { replace 0%Qc with (- 0)%Qc by ring.
      apply Qcopp_le_compat, Qclt_le_weak, Hneg. }
    pose proof (Qcmult_le_compat_r 0 (- x) (- x) H H) as H2.
    replace (0 * - x)%Qc with 0%Qc in H2 by ring.
    replace (- x * - x)%Qc with (x * x)%Qc in H2 by ring. exact H2.
  - pose proof (Qcmult_le_compat_r 0 x x Hpos Hpos) as H2.
    replace (0 * x)%Qc with 0%Qc in H2 by ring. exact H2.
Qed.

Lemma Qc_mul_nonneg (x y : Qc) : (0 <= x)%Qc -> (0 <= y)%Qc -> (0 <= x * y)%Qc.
Proof.
  intros Hx Hy. pose proof (Qcmult_le_compat_r 0 x y Hx Hy) as H.
  replace (0 * y)%Qc with 0%Qc in H by ring. exact H.
Qed.

Lemma Z2Qc_nonneg (z : Z) : 0 <= z -> (0 <= Z2Qc z)%Qc.
Proof.
  intros Hz. unfold Qcle, Z2Qc, Q2Qc. cbn [this]. rewrite !Qred_correct.
  unfold Qle; simpl. lia.
Qed.

Lemma Qc_add_nonneg (x y : Qc) : (0 <= x)%Qc -> (0 <= y)%Qc -> (0 <= x + y)%Qc.
Proof.
  intros Hx Hy. replace 0%Qc with (0 + 0)%Qc by ring. now apply Qcplus_le_compat.
Qed.

Lemma normsq_nonneg (a : C) : (0 <= normsq a)%Qc.
Proof. unfold normsq. apply Qc_add_nonneg; apply Qc_sq_nonneg. Qed.

Lemma sum_normsq_nonneg (l : Z) (alm : Series key) : (0 <= sum_normsq l alm)%Qc.
Proof.
  induction alm as [| e t IH]; simpl; [apply Qcle_refl |].
  destruct (fst (fst e) =? l); [| exact IH].
  apply Qc_add_nonneg; [apply normsq_nonneg | exact IH].
Qed.

Lemma Qc_div_nonneg (x : Qc) (l : Z) :
  (0 <= x)%Qc -> 0 <= l -> (0 <= x / Z2Qc (2 * l + 1))%Qc.
Proof.
  intros Hx Hl.
  replace (x / Z2Qc (2 * l + 1))%Qc
    with (x * Z2Qc (2 * l + 1) * (/ Z2Qc (2 * l + 1) * / Z2Qc (2 * l + 1)))%Qc
    by (field; apply Z2Qc_odd_nonzero).
  apply Qc_mul_nonneg; [| apply Qc_sq_nonneg].
  apply Qc_mul_nonneg; [exact Hx | apply Z2Qc_nonneg; lia].
Qed.

(** Over a set whose degrees are all non-negative (every set the two
    producers return), no entry of the spectrum is negative. *)
Theorem full_alm_2_Cl_nonneg (alm : Series key) (Cl : list (Z * Qc)) :
  (forall k v, In (k, v) alm -> 0 <= fst k) ->
  full_alm_2_Cl alm = Ok Cl ->
  forall l x, In (l, x) Cl -> (0 <= x)%Qc.
Proof.
  intros Hdeg H l x Hin. rewrite full_alm_2_Cl_spec in H. inversion H; subst Cl.
  unfold Cl_spec in Hin. apply in_map_iff in Hin as [l' [E Hl]].
  inversion E; subst. apply in_degrees in Hl as [m [v Hl]].
  apply Qc_div_nonneg; [apply sum_normsq_nonneg |].
  specialize (Hdeg _ _ Hl). simpl in Hdeg. exact Hdeg.
Qed.

Lemma full_alm_2_Cl_nonneg_witness :
  (0 <= (1 + 1) / (1 + 1 + 1))%Qc.
Proof.
  apply (full_alm_2_Cl_nonneg
           [((0, 0), mkC 1%Qc 0%Qc); ((1, -1), c0); ((1, 1), mkC 1%Qc 1%Qc)]
           [(0, 1%Qc); (1, ((1 + 1) / (1 + 1 + 1))%Qc)]) with (l := 1).
  - intros k v [E | [E | [E | []]]]; inversion E; subst; simpl; lia.
  - vm_compute. reflexivity.
  - right. left. reflexivity.
Defined.

(** ** The spectrum of a map *)

Lemma zrange_sorted_le (a n : Z) :
  StronglySorted (fun x y => (x <=? y) = true) (zrange a n).
Proof.
  eapply StronglySorted_weaken; [| apply zrange_sorted].
  intros x y H. apply Z.leb_le. lia.
Qed.

Lemma zrange_NoDup (a n : Z) : NoDup (zrange a n).
Proof.
  eapply StronglySorted_NoDup; [| apply zrange_sorted]. intros x. lia.
Qed.

Lemma StronglySorted_filter {A : Type} (R : A -> A -> Prop) (p : A -> bool)
  (l : list A) :
  StronglySorted R l -> StronglySorted R (filter p l).
Proof.
  induction 1 as [| x l Hs IH Hx]; simpl; [constructor |].
  destruct (p x); [| exact IH]. constructor; [exact IH |].
  apply Forall_forall. intros y Hy. apply filter_In in Hy as [Hy _].
  rewrite Forall_forall in Hx. now apply Hx.
Qed.

Lemma uniq_sorted (R : Z -> Z -> Prop) (l : list Z) :
  StronglySorted R l -> StronglySorted R (uniq l).
Proof.
  induction 1 as [| x l Hs IH Hx]; simpl; constructor.
  - now apply StronglySorted_filter.
  - apply Forall_forall. intros y Hy. apply filter_In in Hy as [Hy _].
    apply (proj1 (in_uniq y l)) in Hy. rewrite Forall_forall in Hx. now apply Hx.
Qed.

Lemma degrees_tab_full_index (F : key -> C) (lmax : Z) :
  degrees (tab F (full_index lmax)) = zrange 0 (lmax + 1).
Proof.
  unfold degrees.
  transitivity (uniq (map fst (full_index lmax))).
  { f_equal. unfold tab. rewrite map_map. reflexivity. }
  apply (sorted_perm_eq Z.leb Zleb_antisym).
  - apply uniq_sorted.
    apply StronglySorted_map with (RA := lex_lt); [| apply full_index_sorted].
    intros x y H. apply Z.leb_le. unfold lex_lt in H. lia.
  - apply zrange_sorted_le.
  - apply NoDup_Permutation; [apply NoDup_uniq | apply zrange_NoDup |].
    intros l. rewrite in_uniq, in_zrange, in_map_iff. split.
    + intros [[l' m] [E Hin]]. simpl in E. subst l'.
      apply in_full_index in Hin. lia.
    + intros Hl. exists (l, 0). split; [reflexivity |].
      apply in_full_index. lia.
Qed.

(** [cmplx_map_2_Cl] on a map the analyser accepts: one row per degree
    [0 .. lmax], ascending, holding the sum of [|a_lm|^2] over the [2l + 1]
    orders of the analysed set divided by [2l + 1]; and the failure of the
    analyser otherwise. *)
Theorem cmplx_map_2_Cl_degrees (mask_bad : list fl -> list bool)
  (map2alm : masked -> Z -> result (list C)) (X : list cpix) (lmax : Z) :
  (forall alm,
      cmplx_map_2_full_alm mask_bad map2alm X lmax = Ok alm ->
      cmplx_map_2_Cl mask_bad map2alm X lmax
      = Ok (map (fun l => (l, (sum_normsq l alm / Z2Qc (2 * l + 1))%Qc))
                (zrange 0 (lmax + 1))))
  /\ (forall e,
        cmplx_map_2_full_alm mask_bad map2alm X lmax = Err e ->
        cmplx_map_2_Cl mask_bad map2alm X lmax = Err e).
Proof.
  split.
  - intros alm H. unfold cmplx_map_2_Cl. rewrite H. cbn [bind].
    rewrite full_alm_2_Cl_spec. f_equal. unfold Cl_spec.
    destruct (analyser_result _ _ _ _ _ H) as [FR [FI [_ [_ E]]]].
    rewrite E at 1. now rewrite degrees_tab_full_index.
  - intros e H. unfold cmplx_map_2_Cl. now rewrite H.
Qed.

Lemma cmplx_map_2_Cl_degrees_witness :
  let alm : Series key := [((0, 0), mkC 1%Qc (1 + 1)%Qc); ((1, -1), c0);
                           ((1, 0), c0); ((1, 1), c0)] in
  cmplx_map_2_Cl Sample.mask_bad Sample.map2alm [mkPix (Fin 1%Qc) (Fin (1 + 1)%Qc)] 1
  = Ok (map (fun l => (l, Qcdiv (sum_normsq l alm) (Z2Qc (2 * l + 1))))
            (zrange 0 (1 + 1))).
Proof.
  cbv zeta.
  apply (proj1 (cmplx_map_2_Cl_degrees Sample.mask_bad Sample.map2alm
                  [mkPix (Fin 1%Qc) (Fin (1 + 1)%Qc)] 1)).
  vm_compute. reflexivity.
Defined.

(** ** The power of a complex map is the power of its two parts *)

Lemma sum_normsq_tab_negm (l : Z) (F : key -> C) (idx : list key) :
  sum_normsq l (tab F (map negm idx)) = sum_normsq l (tab (fun k => F (negm k)) idx).
Proof.
  induction idx as [| k idx IH]; simpl; [reflexivity |]. now rewrite IH.
Qed.

(** Summing over the full index is summing over its mirror. *)
Lemma sum_normsq_mirror_index (l : Z) (F : key -> C) (lmax : Z) :
  sum_normsq l (tab (fun k => F (negm k)) (full_index lmax))
  = sum_normsq l (tab F (full_index lmax)).
Proof.
  rewrite <- sum_normsq_tab_negm. apply sum_normsq_perm.
  unfold tab. apply Permutation_map, negm_full_index_perm.
Qed.

Lemma sum_normsq_pairs (l : Z) (A A' B B' D D' : key -> C) (idx : list key) :
  (forall k, In k idx ->
     (normsq (A k) + normsq (A' k)
      = normsq (B k) + normsq (B' k) + (normsq (D k) + normsq (D' k)))%Qc) ->
  (sum_normsq l (tab A idx) + sum_normsq l (tab A' idx)
   = sum_normsq l (tab B idx) + sum_normsq l (tab B' idx)
     + (sum_normsq l (tab D idx) + sum_normsq l (tab D' idx)))%Qc.
Proof.
  induction idx as [| k idx IH]; intros H; simpl; [ring |].
  assert (IH' := IH (fun k' Hk' => H k' (or_intror Hk'))).
  assert (Hk := H k (or_introl eq_refl)).
  destruct (fst k =? l); [| exact IH'].
  match goal with
  | |- (?a + ?sa + (?a' + ?sa') = _)%Qc =>
      replace (a + sa + (a' + sa'))%Qc with ((a + a') + (sa + sa'))%Qc by ring
  end.
  rewrite Hk, IH'. ring.
Qed.

(** At a label and its mirror together, the squared moduli of the
    combination are those of the two mirrored half sets. *)
Lemma normsq_combination_pos (FR FI : key -> C) (k : key) :
  0 <= snd k ->
  (snd k = 0 -> im (FR k) = 0%Qc /\ im (FI k) = 0%Qc) ->
  (normsq (combination FR FI k) + normsq (combination FR FI (negm k))
   = normsq (mirror FR k) + normsq (mirror FR (negm k))
     + (normsq (mirror FI k) + normsq (mirror FI (negm k))))%Qc.
Proof.
  intros Hk H0. unfold combination.
  destruct (Z.eq_dec (snd k) 0) as [E | E].
  - rewrite (negm_zero k E), !mirror_pos by lia. destruct (H0 E) as [HR HI].
    destruct (FR k) as [a b], (FI k) as [c d]. simpl in HR, HI. subst b d.
    unfold normsq, cadd, cmul, c1j; cbn [re im]. ring.
  - rewrite !mirror_neg, !mirror_pos by lia.
    destruct (FR k) as [a b], (FI k) as [c d].
    destruct (pow_m1_cases (snd k)) as [-> | ->]; [lia | |];
      rewrite ?ZtoC_1, ?ZtoC_m1;
      unfold normsq, cadd, cmul, conj, c1j; cbn [re im]; ring.
Qed.

Lemma normsq_combination (FR FI : key -> C) (lmax : Z) (k : key) :
  (forall k, In k (getlm_pairs lmax) -> snd k = 0 ->
             im (FR k) = 0%Qc /\ im (FI k) = 0%Qc) ->
  In k (full_index lmax) ->
  (normsq (combination FR FI k) + normsq (combination FR FI (negm k))
   = normsq (mirror FR k) + normsq (mirror FR (negm k))
     + (normsq (mirror FI k) + normsq (mirror FI (negm k))))%Qc.
Proof.
  intros H0 Hin. destruct k as [l m]. apply in_full_index in Hin.
  destruct (Z_le_gt_dec 0 m) as [Hm | Hm].
  - apply normsq_combination_pos; [exact Hm |].
    intros E. apply H0; [apply in_getlm_pairs; simpl in *; lia | exact E].
  - pose proof (normsq_combination_pos FR FI (negm (l, m))) as H.
    rewrite negm_involutive in H.
    assert (Hpos : 0 <= snd (negm (l, m))) by (simpl; lia).
    assert (Hz : snd (negm (l, m)) = 0 ->
                 im (FR (negm (l, m))) = 0%Qc /\ im (FI (negm (l, m))) = 0%Qc)
      by (simpl; lia).
    specialize (H Hpos Hz).
    match goal with
    | |- (?x + ?y = ?u + ?v + (?w + ?z))%Qc =>
        replace (x + y)%Qc with (y + x)%Qc by ring;
        replace (u + v + (w + z))%Qc with (v + u + (z + w))%Qc by ring
    end.
    exact H.
Qed.

Lemma Qc_double_inj (x y : Qc) : (x + x = y + y)%Qc -> x = y.
Proof.
  intros H. assert (E : (x - y + (x - y) = 0)%Qc).
  { replace (x - y + (x - y))%Qc with (x + x - (y + y))%Qc by ring. rewrite H. ring. }
  apply Qc_double_zero in E.
  replace x with (x - y + y)%Qc by ring. rewrite E. ring.
Qed.

Lemma sum_normsq_combination (l : Z) (FR FI : key -> C) (lmax : Z) :
  m0_real lmax (map FR (getlm_pairs lmax)) = true ->
  m0_real lmax (map FI (getlm_pairs lmax)) = true ->
  sum_normsq l (tab (combination FR FI) (full_index lmax))
  = (sum_normsq l (tab (mirror FR) (full_index lmax))
     + sum_normsq l (tab (mirror FI) (full_index lmax)))%Qc.
Proof.
  intros H0R H0I.
  pose proof (sum_normsq_pairs l
                (combination FR FI) (fun k => combination FR FI (negm k))
                (mirror FR) (fun k => mirror FR (negm k))
                (mirror FI) (fun k => mirror FI (negm k))
                (full_index lmax)) as H.
  rewrite !sum_normsq_mirror_index in H.
  apply Qc_double_inj.
  rewrite H.
  - ring.
  - intros k Hk. apply (normsq_combination FR FI lmax); [| exact Hk].
    intros k' Hk' E. split;
      [now apply (m0_real_map FR lmax) | now apply (m0_real_map FI lmax)].
Qed.

Lemma Cl_spec_tab (F : key -> C) (lmax : Z) :
  Cl_spec (tab F (full_index lmax))
  = map (fun l => (l, (sum_normsq l (tab F (full_index lmax)) / Z2Qc (2 * l + 1))%Qc))
        (zrange 0 (lmax + 1)).
Proof. unfold Cl_spec. now rewrite degrees_tab_full_index. Qed.

(** For [lmax >= 0], the spectrum of a complex map is, degree by degree,
    the sum of the spectra of its real part and of its imaginary part, each taken over
    its own full (mirrored) coefficient set: the cross terms cancel between
    [m] and [-m].  (This is why [syn_full_alm] gives half of [Cls] to each
    component.) *)
Theorem cmplx_map_2_Cl_adds_parts (mask_bad : list fl -> list bool)
  (map2alm : masked -> Z -> result (list C)) (X : list cpix) (lmax : Z)
  (real_alm imag_alm : list C) :
  0 <= lmax ->
  map2alm (fst (masked_parts mask_bad X)) lmax = Ok real_alm ->
  map2alm (snd (masked_parts mask_bad X)) lmax = Ok imag_alm ->
  length real_alm = getsize lmax ->
  length imag_alm = getsize lmax ->
  m0_real lmax real_alm = true ->
  m0_real lmax imag_alm = true ->
  exists Cl alm_real alm_imag Cl_real Cl_imag,
    cmplx_map_2_Cl mask_bad map2alm X lmax = Ok Cl
    /\ expand_half real_alm lmax = Ok alm_real
    /\ expand_half imag_alm lmax = Ok alm_imag
    /\ full_alm_2_Cl alm_real = Ok Cl_real
    /\ full_alm_2_Cl alm_imag = Ok Cl_imag
    /\ map fst Cl = zrange 0 (lmax + 1)
    /\ Cl = Cl_add Cl_real Cl_imag.
Proof.
  intros Hl0 HR HI HlR HlI H0R H0I.
  destruct (half_set_as_map real_alm lmax HlR) as [FR ER].
  destruct (half_set_as_map imag_alm lmax HlI) as [FI EI]. subst real_alm imag_alm.
  exists (Cl_spec (tab (combination FR FI) (full_index lmax))),
    (tab (mirror FR) (full_index lmax)), (tab (mirror FI) (full_index lmax)),
    (Cl_spec (tab (mirror FR) (full_index lmax))),
    (Cl_spec (tab (mirror FI) (full_index lmax))).
  split; [| split; [| split; [| split; [| split; [| split]]]]].
  - unfold cmplx_map_2_Cl.
    rewrite (analyser_tab mask_bad map2alm X lmax FR FI Hl0 HR HI). cbn [bind].
    apply full_alm_2_Cl_spec.
  - apply expand_half_tab.
  - apply expand_half_tab.
  - apply full_alm_2_Cl_spec.
  - apply full_alm_2_Cl_spec.
  - rewrite Cl_spec_tab, map_map. simpl. apply map_id.
  - rewrite !Cl_spec_tab. unfold Cl_add. rewrite combine_map_l, map_map.
    apply map_ext. intros l. cbn [fst snd]. f_equal.
    rewrite (sum_normsq_combination l FR FI lmax H0R H0I).
    field. apply Z2Qc_odd_nonzero.
Qed.

Lemma cmplx_map_2_Cl_adds_parts_witness :
  let X := [mkPix (Fin 1%Qc) (Fin (1 + 1)%Qc); mkPix NaN (Fin 0%Qc)] in
  exists Cl alm_real alm_imag Cl_real Cl_imag,
    cmplx_map_2_Cl Sample.mask_bad Sample.map2alm X 1 = Ok Cl
    /\ expand_half [RtoC 1%Qc; c0; c0] 1 = Ok alm_real
    /\ expand_half [RtoC (1 + 1)%Qc; c0; c0] 1 = Ok alm_imag
    /\ full_alm_2_Cl alm_real = Ok Cl_real
    /\ full_alm_2_Cl alm_imag = Ok Cl_imag
    /\ map fst Cl = zrange 0 (1 + 1)
    /\ Cl = Cl_add Cl_real Cl_imag.
Proof.
  cbv zeta.
  apply (cmplx_map_2_Cl_adds_parts Sample.mask_bad Sample.map2alm
           [mkPix (Fin 1%Qc) (Fin (1 + 1)%Qc); mkPix NaN (Fin 0%Qc)] 1
           [RtoC 1%Qc; c0; c0] [RtoC (1 + 1)%Qc; c0; c0]);
    try reflexivity; try lia; vm_compute; reflexivity.
Defined.

(** ** The split components have the symmetry of real maps *)

Lemma abs_snd_negm (k : key) : Z.abs (snd (negm k)) = Z.abs (snd k).
Proof. destruct k as [l m]; simpl. apply Z.abs_opp. Qed.

Lemma split_parts_symmetric (G : key -> C) (k : key) :
  re_part G (negm k) = cmul (ZtoC (pow_m1 (Z.abs (snd k)))) (conj (re_part G k))
  /\ im_part G (negm k) = cmul (ZtoC (pow_m1 (Z.abs (snd k)))) (conj (im_part G k)).
Proof.
  unfold re_part, im_part. rewrite abs_snd_negm, negm_involutive.
  destruct (G k) as [a b], (G (negm k)) as [c d].
  destruct (pow_m1_cases (Z.abs (snd k)) (Z.abs_nonneg _)) as [-> | ->];
    rewrite ?ZtoC_1, ?ZtoC_m1; split; apply c_eq; simpl; ring.
Qed.

(** Whatever the values of a coefficient set whose rows are in the order
    both producers return them (sorted by [(l, m)]), the two components the
    synthesiser derives from it satisfy [x_(l,-m) = (-1)^m conj (x_(l,m))]: each is the
    coefficient set of a real map, so keeping only their rows at [m >= 0]
    (lines 288-293) loses nothing. *)
Theorem split_components_are_real_sets (lmax : Z) (alm : Series key) :
  index alm = full_index lmax ->
  exists re_alm im_alm,
    split_alm alm = Ok (re_alm, im_alm)
    /\ forall l m, 0 <= m <= l -> l <= lmax ->
         exists x y,
           lookup (l, m) re_alm = Some x
           /\ lookup (l, - m) re_alm = Some (cmul (ZtoC (pow_m1 m)) (conj x))
           /\ lookup (l, m) im_alm = Some y
           /\ lookup (l, - m) im_alm = Some (cmul (ZtoC (pow_m1 m)) (conj y)).
Proof.
  intros Hidx.
  assert (Halm : alm = tab (fun k => lookup_or c0 k alm) (full_index lmax)).
  { rewrite <- Hidx. apply series_as_tab. rewrite Hidx. apply full_index_NoDup. }
  set (G := fun k => lookup_or c0 k alm) in *.
  exists (tab (re_part G) (full_index lmax)), (tab (im_part G) (full_index lmax)).
  split; [rewrite Halm at 1; apply split_alm_tab |].
  intros l m Hm Hl.
  exists (re_part G (l, m)), (im_part G (l, m)).
  rewrite !lookup_tab by (apply in_full_index; lia).
  destruct (split_parts_symmetric G (l, m)) as [E1 E2].
  change (negm (l, m)) with (l, - m) in E1, E2. cbn [snd] in E1, E2.
  rewrite Z.abs_eq in E1, E2 by lia.
  repeat split; now f_equal.
Qed.

Lemma split_components_are_real_sets_witness :
  let alm := [((0, 0), mkC 1%Qc 1%Qc); ((1, -1), mkC 0%Qc 1%Qc);
              ((1, 0), mkC 1%Qc 0%Qc); ((1, 1), mkC 1%Qc 1%Qc)] in
  exists re_alm im_alm,
    split_alm alm = Ok (re_alm, im_alm)
    /\ forall l m, 0 <= m <= l -> l <= 1 ->
         exists x y,
           lookup (l, m) re_alm = Some x
           /\ lookup (l, - m) re_alm = Some (cmul (ZtoC (pow_m1 m)) (conj x))
           /\ lookup (l, m) im_alm = Some y
           /\ lookup (l, - m) im_alm = Some (cmul (ZtoC (pow_m1 m)) (conj y)).
Proof.
  cbv zeta. apply (split_components_are_real_sets 1). reflexivity.
Defined.

(** ** Synthesis followed by analysis *)

Lemma cmul_comm (a b : C) : cmul a b = cmul b a.
Proof. destruct a, b. apply c_eq; simpl; ring. Qed.

Lemma recombine_parts (G : key -> C) (k : key) :
  cadd (re_part G k) (cmul c1j (im_part G k)) = G k.
Proof.
  unfold re_part, im_part.
  generalize (cmul (ZtoC (pow_m1 (Z.abs (snd k)))) (conj (G (negm k)))) as S.
  generalize (G k) as a. intros [ar ai] [sr si].
  apply c_eq; simpl; unfold half; field; exact two_neq_0.
Qed.

Lemma mirror_of_split_part (G : key -> C) (k : key) :
  mirror (re_part G) k = re_part G k /\ mirror (im_part G) k = im_part G k.
Proof.
  unfold mirror. destruct (0 <=? snd k) eqn:E; [split; reflexivity |].
  apply Z.leb_gt in E.
  destruct (split_parts_symmetric G (negm k)) as [E1 E2].
  rewrite negm_involutive, abs_snd_negm in E1, E2.
  rewrite Z.abs_neq in E1, E2 by lia.
  rewrite E1, E2. split; apply cmul_comm.
Qed.

Lemma combination_of_split (G : key -> C) (k : key) :
  combination (re_part G) (im_part G) k = G k.
Proof.
  unfold combination. destruct (mirror_of_split_part G k) as [-> ->].
  apply recombine_parts.
Qed.

Lemma np_complex_parts (re_map im_map : list Qc) :
  length re_map = length im_map ->
  exists Y, np_complex re_map im_map = Ok Y
            /\ map pre (map pix_of_C Y) = map Fin re_map
            /\ map pim (map pix_of_C Y) = map Fin im_map
            /\ map np_isnan (map pix_of_C Y) = repeat false (length re_map).
Proof.
  intros Hlen. unfold np_complex. rewrite Hlen, Nat.eqb_refl.
  eexists. split; [reflexivity |]. rewrite <- Hlen. clear -Hlen.
  revert im_map Hlen. induction re_map as [| r re_map IH]; intros [| i im_map] Hlen;
    simpl in Hlen; try discriminate; [repeat split |].
  injection Hlen as Hlen. destruct (IH im_map Hlen) as [H1 [H2 H3]].
  cbn [combine map length repeat]. rewrite H1, H2, H3.
  split; [| split].
  - f_equal. unfold pix_of_C; cbn [pre]. f_equal.
    unfold cadd, cmul, RtoC, c1j; cbn [re im fst snd]. ring.
  - f_equal. unfold pix_of_C; cbn [pim]. f_equal.
    unfold cadd, cmul, RtoC, c1j; cbn [re im fst snd]. ring.
  - reflexivity.
Qed.

(** The other round trip.  Take a coefficient set over the full index of
    some [lmax >= 0], its rows in the order both producers return them
    (sorted by [(l, m)]), and synthesise it; if the external analysis of the real and of the
    imaginary part of the synthesised map returns the two arrays the
    external synthesis was given, then analysing the synthesised map returns
    the coefficient set: every value, at negative [m] too, whether or not
    the set has any symmetry. *)
Theorem synthesis_then_analysis (mask_bad : list fl -> list bool)
  (map2alm : masked -> Z -> result (list C))
  (alm2map : list C -> Z -> option Z -> result (list Qc))
  (lmax nside : Z) (lm : option Z) (alm re_s im_s : Series key)
  (re_alm im_alm : list C) (re_map im_map : list Qc) :
  0 <= lmax ->
  index alm = full_index lmax ->
  split_alm alm = Ok (re_s, im_s) ->
  to_healpy re_s (map snd (index alm)) = Ok re_alm ->
  to_healpy im_s (map snd (index alm)) = Ok im_alm ->
  alm2map re_alm nside lm = Ok re_map ->
  alm2map im_alm nside lm = Ok im_map ->
  length re_map = length im_map ->
  map2alm (mkMasked (map Fin re_map) (repeat false (length re_map))) lmax = Ok re_alm ->
  map2alm (mkMasked (map Fin im_map) (repeat false (length re_map))) lmax = Ok im_alm ->
  exists Y,
    full_alm_2_cmplx_map alm2map alm (Some nside) lm = Ok Y
    /\ cmplx_map_2_full_alm mask_bad map2alm (map pix_of_C Y) lmax = Ok alm.
Proof.
  intros Hl0 Hidx Hsplit Hre Him HsR HsI Hlen HaR HaI.
  assert (Halm : alm = tab (fun k => lookup_or c0 k alm) (full_index lmax)).
  { rewrite <- Hidx. apply series_as_tab. rewrite Hidx. apply full_index_NoDup. }
  remember (fun k => lookup_or c0 k alm) as G eqn:EG. clear EG.
  subst alm. rewrite index_tab in Hre, Him.
  rewrite split_alm_tab in Hsplit. inversion Hsplit; subst re_s im_s. clear Hsplit.
  rewrite to_healpy_tab in Hre, Him.
  inversion Hre as [ER]. inversion Him as [EI]. clear Hre Him.
  destruct (np_complex_parts re_map im_map Hlen) as [Y [HY [Hpre [Hpim Hmask]]]].
  exists Y. split.
  - unfold full_alm_2_cmplx_map. cbv zeta. rewrite index_tab, split_alm_tab.
    cbn [bind]. rewrite !to_healpy_tab. cbn [bind].
    rewrite ER, HsR. cbn [bind]. rewrite EI, HsI. cbn [bind]. exact HY.
  - rewrite (analyser_tab mask_bad map2alm (map pix_of_C Y) lmax
               (re_part G) (im_part G) Hl0).
    + f_equal. apply tab_ext_in. intros k _. apply combination_of_split.
    + unfold masked_parts, set_mask, hp_ma; cbn [fst snd data].
      rewrite Hpre, Hmask, ER. exact HaR.
    + unfold masked_parts, set_mask, hp_ma; cbn [fst snd data].
      rewrite Hpim, Hmask, EI. exact HaI.
Qed.

Lemma synthesis_then_analysis_witness :
  let alm := [((0, 0), mkC 1%Qc (1 + 1)%Qc); ((1, -1), c0); ((1, 0), c0); ((1, 1), c0)] in
  exists Y,
    full_alm_2_cmplx_map Sample.alm2map alm (Some 1) (Some 1) = Ok Y
    /\ cmplx_map_2_full_alm Sample.mask_bad Sample.map2alm (map pix_of_C Y) 1 = Ok alm.
Proof.
  cbv zeta.
  apply (synthesis_then_analysis Sample.mask_bad Sample.map2alm Sample.alm2map 1 1
           (Some 1)
           [((0, 0), mkC 1%Qc (1 + 1)%Qc); ((1, -1), c0); ((1, 0), c0); ((1, 1), c0)]
           [((0, 0), mkC 1%Qc 0%Qc); ((1, -1), c0); ((1, 0), c0); ((1, 1), c0)]
           [((0, 0), mkC (1 + 1)%Qc 0%Qc); ((1, -1), c0); ((1, 0), c0); ((1, 1), c0)]
           [mkC 1%Qc 0%Qc; c0; c0] [mkC (1 + 1)%Qc 0%Qc; c0; c0]
           (repeat 1%Qc 12) (repeat (1 + 1)%Qc 12));
    try reflexivity; try lia; vm_compute; reflexivity.
Defined.

(** ** Inclination factors *)

(** Whatever the cosine of the inclination, the plus factor [a] is at
    least 1 and the cross factor [b] never exceeds it in magnitude:
    [a + b = (1 - cos)^2] and [a - b = (1 + cos)^2]. *)
Theorem inclination_bounds (np_cos : Qc -> Qc) (iota : Qc) :
  let a := fst (inclination np_cos iota) in
  let b := snd (inclination np_cos iota) in
  (1 <= a)%Qc /\ (- a <= b)%Qc /\ (b <= a)%Qc
  /\ (a + b = (1 - np_cos iota) * (1 - np_cos iota))%Qc
  /\ (a - b = (1 + np_cos iota) * (1 + np_cos iota))%Qc.
Proof.
  cbv zeta. unfold inclination. cbn [fst snd Qcpower].
  generalize (np_cos iota) as c. intros c.
  split; [| split; [| split; [| split]]].
  - apply Qcle_minus_iff.
    replace (1 + c * (c * 1) + - (1))%Qc with (c * c)%Qc by ring.
    apply Qc_sq_nonneg.
  - apply Qcle_minus_iff.
    replace (- (1 + 1) * c + - - (1 + c * (c * 1)))%Qc
      with ((1 - c) * (1 - c))%Qc by ring.
    apply Qc_sq_nonneg.
  - apply Qcle_minus_iff.
    replace (1 + c * (c * 1) + - (- (1 + 1) * c))%Qc
      with ((1 + c) * (1 + c))%Qc by ring.
    apply Qc_sq_nonneg.
  - ring.
  - ring.
Qed.
